(** * io/osrm_writer.hpp: the policy-based segment writer

    A shallow embedding of [OSRMWriter] and of the policies of
    [io/osrm_writer.hpp], over a model of the [std::ostream] the writer
    borrows.  The policies are records of functions in a state monad
    over the stream; the writer is a record holding the four data
    members of the class. *)

From Stdlib Require Import ZArith Lia List Bool.
From coqutil Require Import Byte Word.LittleEndianList.
From stdpp Require Import base tactics list.

Local Open Scope Z_scope.

(** ** Machine integers

    [std::size_t] is 64 bits wide, [unsigned] is 32 bits wide and stream
    offsets ([std::streamoff]) are signed 64-bit integers.  Values are
    kept in [Z]; every conversion writes its wrap-around out. *)

Definition SIZE_WIDTH : Z := 64.
Definition UNSIGNED_WIDTH : Z := 32.
Definition STREAMOFF_MAX : Z := 2 ^ 63 - 1.

(** Conversion to [std::size_t] (modulo 2^64). *)
Definition to_size_t (z : Z) : Z := z mod 2 ^ SIZE_WIDTH.

(** [static_cast<unsigned>] (modulo 2^32). *)
Definition to_unsigned (z : Z) : Z := z mod 2 ^ UNSIGNED_WIDTH.

(** Conversion of a [std::size_t] to a stream position: the value is
    reinterpreted as a signed 64-bit offset. *)
Definition to_streamoff (z : Z) : Z :=
  (z + 2 ^ 63) mod 2 ^ SIZE_WIDTH - 2 ^ 63.

(** ** Object representations

    [reinterpret_cast<const char *>(&x)] together with [sizeof(T)] reads
    the object representation of [x]: [sizeof(T)] bytes.  The policies
    ask for a trivial type; its bytes are taken to be a function of the
    value (no padding of indeterminate content).  No object is larger
    than [PTRDIFF_MAX] bytes. *)

Class Trivial (T : Type) := {
  sizeof : nat;
  object_repr : T -> list byte;
  object_repr_length : forall x : T, length (object_repr x) = sizeof;
  sizeof_bound : Z.of_nat sizeof <= STREAMOFF_MAX
}.
Arguments sizeof T {_}.

(** The object representation of an [unsigned]: four bytes, least
    significant first. *)
Definition unsigned_repr (v : Z) : list byte := le_split 4 v.

(** ** The output stream

    [content] are the bytes the sink holds and [ppos] is the put
    position of the stream buffer.  [failed] is [fail()]: failbit or
    badbit is set; the flag is sticky, no operation of this file clears
    it.  [seekable] tells whether the buffer supports positioning and
    [limit] is the largest end offset the sink accepts: of a write that
    would end beyond it the sink takes the bytes that fit and refuses
    the rest.  The exception mask of
    the stream is the default one: a failure sets the state and throws
    nothing.  [trace] is kept for the proofs only: what happened on the
    stream, most recent first. *)

Inductive event : Type :=
  | Stored (offset : Z) (bytes : list byte)  (* the sink took [bytes] at [offset] *)
  | WriteFailed                               (* a [write] did not store all its bytes *)
  | SeekFailed                                (* a [seekp] did not reposition *)
  | TellFailed.                               (* a [tellp] returned -1 *)

Record ostream := mk_ostream {
  content : list byte;
  ppos : Z;
  failed : bool;
  seekable : bool;
  limit : Z;
  trace : list event
}.

(** Positions and limits of a stream are valid offsets. *)
Definition stream_wf (s : ostream) : Prop :=
  0 <= ppos s <= STREAMOFF_MAX /\ limit s <= STREAMOFF_MAX.

(** The first [p] bytes of [d], padded with zero bytes when [d] is
    shorter (writing past the end of a file leaves a hole of zeros). *)
Definition pad (p : nat) (d : list byte) : list byte :=
  take p d ++ replicate (p - length d) Byte.x00.

(** [d] with the bytes [bs] stored at offset [p]. *)
Definition overwrite (p : nat) (bs d : list byte) : list byte :=
  pad p d ++ bs ++ drop (p + length bs) d.

(** Stream operations are state transformers over the stream. *)
Definition io (A : Type) : Type := ostream -> A * ostream.

#[export] Instance io_ret : MRet io := fun A (a : A) s => (a, s).
#[export] Instance io_bind : MBind io := fun A B (k : A -> io B) (m : io A) s =>
  let (a, s') := m s in k a s'.

Definition note (e : event) (s : ostream) : ostream :=
  mk_ostream (content s) (ppos s) (failed s) (seekable s) (limit s) (e :: trace s).

Definition set_failed (s : ostream) : ostream :=
  mk_ostream (content s) (ppos s) true (seekable s) (limit s) (trace s).

Definition set_ppos (p : Z) (s : ostream) : ostream :=
  mk_ostream (content s) p (failed s) (seekable s) (limit s) (trace s).

Definition store (bs : list byte) (s : ostream) : ostream :=
  mk_ostream (overwrite (Z.to_nat (ppos s)) bs (content s))
             (ppos s + Z.of_nat (length bs))
             (failed s) (seekable s) (limit s)
             (Stored (ppos s) bs :: trace s).

(** The bytes of [bs] that fit below the limit of the sink. *)
Definition fitting (bs : list byte) (s : ostream) : list byte :=
  take (Z.to_nat (limit s - ppos s)) bs.

(** The sink takes the bytes of [bs] that fit, if any. *)
Definition store_fitting (bs : list byte) (s : ostream) : ostream :=
  match fitting bs s with
  | [] => s
  | part => store part s
  end.

(** [stream.write(p, n)]: stores nothing on a stream that is not good;
    otherwise hands the bytes to the sink, which stores them one after
    the other; when the sink does not take them all, the bytes that fit
    are stored and badbit is set.  The call returns the stream, which
    the callers in this file ignore. *)
Definition write (bs : list byte) : io unit := fun s =>
  (tt, if failed s then note WriteFailed s
       else if ppos s + Z.of_nat (length bs) <=? limit s then store bs s
       else note WriteFailed (set_failed (store_fitting bs s))).

(** [stream.tellp()]: [pos_type(-1)] when [fail()] holds or when the
    buffer cannot report a position; the stream state is not changed. *)
Definition tellp : io Z := fun s =>
  if negb (failed s) && seekable s then (ppos s, s)
  else (-1, note TellFailed s).

(** [stream.seekp(pos)]: does nothing when [fail()] holds; otherwise
    repositions the buffer, and sets failbit when that fails (the buffer
    is not seekable, or [pos] is not a valid position). *)
Definition seekp (p : Z) : io unit := fun s =>
  (tt, if failed s then note SeekFailed s
       else if seekable s && (0 <=? p) then set_ppos p s
       else note SeekFailed (set_failed s)).

(** ** Policies *)

Record HeaderWritePolicy := {
  header_Write : forall {T} `{Trivial T}, T -> Z -> Z -> io Z
}.

Record TypeWritePolicy := {
  type_Write : forall {T} `{Trivial T}, T -> Z -> Z -> Z -> io Z
}.

Record FinalizeWritePolicy := {
  finalize_Write : Z -> Z -> Z -> io Z
}.

(** Silent policies. *)

Definition NoHeaderWritePolicy : HeaderWritePolicy :=
  {| header_Write := fun T _ (_ : T) (_ _ : Z) => mret 0 |}.

Definition NoTypeWritePolicy : TypeWritePolicy :=
  {| type_Write := fun T _ (_ : T) (_ _ _ : Z) => mret 0 |}.

Definition NoFinalizeWritePolicy : FinalizeWritePolicy :=
  {| finalize_Write := fun (_ _ _ : Z) => mret 0 |}.

(** Concrete policies. *)

Definition TrivialHeaderWritePolicy : HeaderWritePolicy :=
  {| header_Write := fun T _ (header : T) (_ _ : Z) =>
       let offset := Z.of_nat (sizeof T) in
       write (object_repr header) ;;
       mret offset |}.

Definition TrivialTypeWritePolicy : TypeWritePolicy :=
  {| type_Write := fun T _ (item : T) (_ _ _ : Z) =>
       write (object_repr item) ;;
       mret 1 |}.

Definition LengthPrefixHeaderWritePolicy : HeaderWritePolicy :=
  {| header_Write := fun T _ (_ : T) (_ _ : Z) =>
       let reserved := 0 in
       write (unsigned_repr reserved) ;;
       mret 0 |}.

Definition LengthPrefixFinalizeWritePolicy : FinalizeWritePolicy :=
  {| finalize_Write := fun (segment_start header_offset count : Z) =>
       here ← tellp;
       seekp (to_streamoff (to_size_t (segment_start + header_offset))) ;;
       let len := to_unsigned count in
       write (unsigned_repr len) ;;
       seekp here ;;
       mret 1 |}.

(** ** The writer

    The three template arguments of [OSRMWriter]. *)

Record policies := Policies {
  Header_ : HeaderWritePolicy;
  Type_ : TypeWritePolicy;
  Finalize_ : FinalizeWritePolicy
}.

(** The policy calls an object makes; used in [history_] below. *)
Inductive policy_call : Type :=
  | HeaderCall
  | TypeCall
  | FinalizeCall.

#[export] Instance policy_call_eq_dec : EqDecision policy_call.
Proof. solve_decision. Defined.

Module OSRMWriter.

(** The data members of the class.  [stream_] is the stream the writer
    borrows for its lifetime; the destructor hands it back.  [history_]
    is kept for the proofs only: the policy calls the object has made,
    oldest first. *)
Record t := mk {
  stream_ : ostream;
  segment_start_ : Z;
  header_offset_ : Z;
  count_ : Z;
  history_ : list policy_call
}.

(** A member function: a state transformer over the object. *)
Definition method (A : Type) : Type := t -> A * t.

Section Members.

Context (P : policies).

(** [OSRMWriter(std::ostream &stream, const Header &header)] *)
Definition ctor {Header} `{Trivial Header} (stream : ostream) (header : Header) : t :=
  let (pos, stream) := tellp stream in
  let segment_start := to_size_t pos in
  let count := 0 in
  let (offset, stream) := header_Write (Header_ P) header segment_start count stream in
  mk stream segment_start offset count [HeaderCall].

(** [~OSRMWriter()]: the value of the finalizer is dropped. *)
Definition dtor (w : t) : ostream * list policy_call :=
  let (len, stream) :=
    finalize_Write (Finalize_ P)
      (segment_start_ w) (header_offset_ w) (count_ w) (stream_ w) in
  (stream, history_ w ++ [FinalizeCall]).

(** [template <typename T> void Write(const T &item)] *)
Definition Write {T} `{Trivial T} (item : T) : method unit := fun w =>
  let (written, stream) :=
    type_Write (Type_ P) item
      (segment_start_ w) (header_offset_ w) (count_ w) (stream_ w) in
  (tt, mk stream (segment_start_ w) (header_offset_ w)
          (to_size_t (count_ w + written)) (history_ w ++ [TypeCall])).

(** [std::size_t Count() const] *)
Definition Count : method Z := fun w => (count_ w, w).

End Members.

End OSRMWriter.

(** The aliases at the end of the header. *)

Definition HeaderWriter : policies :=
  Policies TrivialHeaderWritePolicy       (* Write headers of trivial type *)
           NoTypeWritePolicy              (* No elements to write *)
           NoFinalizeWritePolicy.         (* No finalizer *)

Definition EdgeWriter : policies :=
  Policies LengthPrefixHeaderWritePolicy    (* Reserve for length *)
           TrivialTypeWritePolicy           (* Write items of trivial type *)
           LengthPrefixFinalizeWritePolicy. (* Write length into reserved *)

Definition NodeWriter : policies :=
  Policies LengthPrefixHeaderWritePolicy    (* Reserve for length *)
           TrivialTypeWritePolicy           (* Write items of trivial type *)
           LengthPrefixFinalizeWritePolicy. (* Write length into reserved *)

(** The two counted-record writers. *)
Definition counted_record_writers : list policies := [EdgeWriter; NodeWriter].

(** The policies of this file, role by role, and the writers that can be
    built from them. *)
Definition header_policies : list HeaderWritePolicy :=
  [NoHeaderWritePolicy; TrivialHeaderWritePolicy; LengthPrefixHeaderWritePolicy].
Definition type_policies : list TypeWritePolicy :=
  [NoTypeWritePolicy; TrivialTypeWritePolicy].
Definition finalize_policies : list FinalizeWritePolicy :=
  [NoFinalizeWritePolicy; LengthPrefixFinalizeWritePolicy].

Definition of_this_file (P : policies) : Prop :=
  In (Header_ P) header_policies /\
  In (Type_ P) type_policies /\
  In (Finalize_ P) finalize_policies.

(** ** Callers

    The code between the declaration of a writer and the end of its
    block: it calls [Write] and [Count] and leaves the block either by
    running to its end or by an exception thrown in the block. *)

Inductive exit_path : Type :=
  | Completed
  | Unwound.

Inductive block (T : Type) : Type :=
  | End : block T
  | Throw : block T
  | CallWrite : T -> block T -> block T
  | CallCount : (Z -> block T) -> block T.
Arguments End {T}.
Arguments Throw {T}.
Arguments CallWrite {T} _ _.
Arguments CallCount {T} _.

Record outcome := mk_outcome {
  out : ostream;
  how : exit_path;
  calls : list policy_call
}.

Section Lifetime.

Context (P : policies).
Context {Header T : Type} `{Trivial Header} `{Trivial T}.

Fixpoint run_block (b : block T) (w : OSRMWriter.t) : exit_path * OSRMWriter.t :=
  match b with
  | End => (Completed, w)
  | Throw => (Unwound, w)
  | CallWrite item rest =>
      let (_, w) := OSRMWriter.Write P item w in run_block rest w
  | CallCount rest =>
      let (n, w) := OSRMWriter.Count w in run_block (rest n) w
  end.

(** A block that declares a writer on [stream]: the constructor runs,
    then the block, and the destructor runs when the block is left, on
    either path. *)
Definition scope (stream : ostream) (header : Header) (b : block T) : outcome :=
  let w := OSRMWriter.ctor P stream header in
  let (e, w) := run_block b w in
  let (stream, log) := OSRMWriter.dtor P w in
  mk_outcome stream e log.

(** The writer after [Write] was called on each of [items] in turn. *)
Definition write_all (items : list T) (w : OSRMWriter.t) : OSRMWriter.t :=
  fold_left (fun w item => snd (OSRMWriter.Write P item w)) items w.

(** The straight-line block that writes [items] and ends. *)
Definition writes (items : list T) : block T :=
  fold_right CallWrite End items.

(** The stream after the lifetime of a writer through which [items]
    were written. *)
Definition lifetime (stream : ostream) (header : Header) (items : list T) : ostream :=
  out (scope stream header (writes items)).

End Lifetime.

(** ** Record types for the examples *)

(** A 32-bit unsigned field. *)
Record uint32 := U32 { u32 : Z }.

#[export] Instance uint32_trivial : Trivial uint32 :=
  {| sizeof := 4;
     object_repr := fun x => le_split 4 (u32 x);
     object_repr_length := fun x => length_le_split 4 (u32 x);
     sizeof_bound := ltac:(unfold STREAMOFF_MAX; lia) |}.

(** A struct of two members laid out without padding. *)
Definition pair_trivial {A B} {TA : Trivial A} {TB : Trivial B}
    (Hfit : Z.of_nat (sizeof A + sizeof B) <= STREAMOFF_MAX) : Trivial (A * B) :=
  {| sizeof := sizeof A + sizeof B;
     object_repr := fun x => object_repr (fst x) ++ object_repr (snd x);
     object_repr_length := fun x =>
       eq_trans (length_app _ _)
         (f_equal2 Nat.add (object_repr_length (fst x)) (object_repr_length (snd x)));
     sizeof_bound := Hfit |}.

(** An 8-byte record and a 16-byte header. *)
Definition record8 : Type := uint32 * uint32.
Definition header16 : Type := record8 * record8.

#[export] Instance record8_trivial : Trivial record8 :=
  pair_trivial (TA := uint32_trivial) (TB := uint32_trivial)
    ltac:(unfold STREAMOFF_MAX; simpl; lia).

#[export] Instance header16_trivial : Trivial header16 :=
  pair_trivial (TA := record8_trivial) (TB := record8_trivial)
    ltac:(unfold STREAMOFF_MAX; simpl; lia).

(** A fresh, empty, seekable stream with no limit below the largest
    offset. *)
Definition fresh : ostream := mk_ostream [] 0 false true STREAMOFF_MAX [].

(** A stream that cannot report or change its position (a pipe). *)
Definition pipe : ostream := mk_ostream [] 0 false false STREAMOFF_MAX [].

(** A stream whose sink accepts at most [n] bytes. *)
Definition bounded (n : Z) : ostream := mk_ostream [] 0 false true n [].

(** Values for the examples: three 8-byte records, a 16-byte header, a
    seekable stream that already holds bytes, and a counted-record
    writer that has counted 2^32 + 5 items. *)
Definition R0 : record8 := (U32 1, U32 2).
Definition R1 : record8 := (U32 3, U32 4).
Definition R2 : record8 := (U32 5, U32 6).
Definition H16 : header16 := ((U32 1, U32 2), (U32 3, U32 4)).
Definition used : ostream :=
  mk_ostream (replicate 32 Byte.xff) 0 false true STREAMOFF_MAX [].
Definition overflowing : OSRMWriter.t :=
  OSRMWriter.mk (mk_ostream (unsigned_repr 0) 4 false true STREAMOFF_MAX [])
                0 0 (2 ^ 32 + 5) [HeaderCall].

(** A seekable stream that stands in the middle of the bytes it holds,
    and a block that writes a second item when [Count()] returns 1 and
    is then left by an exception. *)
Definition midway : ostream :=
  mk_ostream (replicate 32 Byte.xff) 16 false true STREAMOFF_MAX [].
Definition counting_block : block record8 :=
  CallWrite R0 (CallCount (fun c => if c =? 1 then CallWrite R1 Throw else End)).

(** A finalizer for the examples, not one of [osrm_writer.hpp]: it
    writes a one-byte end marker.  With the silent header and item
    policies it makes a writer whose only writes are those of its
    finalizer; [marks] counts the calls of [write] a stream has seen. *)
Definition MarkerFinalizeWritePolicy : FinalizeWritePolicy :=
  {| finalize_Write := fun (_ _ _ : Z) =>
       write [Byte.xff] ;;
       mret 1 |}.
Definition MarkedWriter : policies :=
  Policies NoHeaderWritePolicy NoTypeWritePolicy MarkerFinalizeWritePolicy.
Definition marks (st : ostream) : nat :=
  length (List.filter (fun e => match e with
                                | Stored _ _ | WriteFailed => true
                                | _ => false
                                end) (trace st)).

(** ** Reading a segment back *)

(** Modelled from the spec: the reader of a counted-record segment, of
    which the repository holds no source.  It reads the 4-byte count
    first, then exactly that many records of [w] bytes each. *)
Fixpoint read_records (w n : nat) (bytes : list byte) : option (list (list byte)) :=
  match n with
  | O => Some []
  | S n =>
      if (length bytes <? w)%nat then None
      else match read_records w n (drop w bytes) with
           | Some rest => Some (take w bytes :: rest)
           | None => None
           end
  end.

Definition read_segment (w : nat) (bytes : list byte) : option (Z * list (list byte)) :=
  if (length bytes <? 4)%nat then None
  else
    let count := le_combine (take 4 bytes) in
    match read_records w (Z.to_nat count) (drop 4 bytes) with
    | Some records => Some (count, records)
    | None => None
    end.

(** The bytes of a stream from offset [p] on. *)
Definition from (p : Z) (s : ostream) : list byte := drop (Z.to_nat p) (content s).

(** ** Notions used in the statements *)

(** The stream after the byte strings [bss] were written one after the
    other. *)
Definition put_all (bss : list (list byte)) (s : ostream) : ostream :=
  fold_left (fun s bs => snd (write bs s)) bss s.

(** The segment of a counted-record writer: the count, narrowed to an
    [unsigned], then the records. *)
Definition segment_bytes {T} `{Trivial T} (items : list T) : list byte :=
  unsigned_repr (to_unsigned (Z.of_nat (length items))) ++ concat (map object_repr items).

(** [tick] counts the runs of the finalizer of [P] on a stream: each
    run adds one, whatever its arguments and the state of the stream,
    and [tellp] and the header and item policies of [P] add nothing. *)
Definition counts_finalizer (P : policies) (Header T : Type)
    `{Trivial Header} `{Trivial T} (tick : ostream -> nat) : Prop :=
  (forall st, tick (snd (tellp st)) = tick st) /\
  (forall (header : Header) (ss c : Z) st,
     tick (snd (header_Write (Header_ P) header ss c st)) = tick st) /\
  (forall (item : T) (ss ho c : Z) st,
     tick (snd (type_Write (Type_ P) item ss ho c st)) = tick st) /\
  (forall (ss ho c : Z) st,
     tick (snd (finalize_Write (Finalize_ P) ss ho c st)) = S (tick st)).

(** The stores recorded in a trace, most recent first. *)
Definition stores (t : list event) : list (Z * list byte) :=
  flat_map (fun e => match e with Stored o bs => [(o, bs)] | _ => [] end) t.

(** An action keeps [Inv] when [Inv] holds of the stream after it
    whenever it held before. *)
Definition respects (Inv : ostream -> Prop) {A} (m : io A) : Prop :=
  forall st, Inv st -> Inv (snd (m st)).

(** Since [s0], every failed write or seek is matched by the failure flag
    of the stream. *)
Definition flagged (s0 st : ostream) : Prop :=
  exists new : list event,
    trace st = new ++ trace s0 /\
    (In WriteFailed new \/ In SeekFailed new -> failed st = true).

(** A store at or after offset [ss]; other events store nothing. *)
Definition not_before (ss : Z) (e : event) : Prop :=
  match e with
  | Stored o _ => ss <= o
  | _ => True
  end.

(** From [a] to [b] nothing was stored before [ss]. *)
Definition extends (ss : Z) (a b : ostream) : Prop :=
  exists new : list event, trace b = new ++ trace a /\ Forall (not_before ss) new.

(** Since [s0] nothing was stored before [ss], and a good stream stands
    at or after [ss]. *)
Definition behind (ss : Z) (s0 st : ostream) : Prop :=
  extends ss s0 st /\ (failed st = false -> ss <= ppos st /\ ss <= STREAMOFF_MAX).

(** The streams [a] and [b], reached from [a0] and [b0], are in the same
    condition: same position, flags and limit, the same events since the
    start, and the same bytes if they started with the same bytes. *)
Definition alike (a0 b0 a b : ostream) : Prop :=
  ppos a = ppos b /\ failed a = failed b /\ seekable a = seekable b /\
  limit a = limit b /\
  (exists new : list event, trace a = new ++ trace a0 /\ trace b = new ++ trace b0) /\
  (content a0 = content b0 -> content a = content b).

(** An action that, on streams in the same condition, returns the same
    value and leaves them in the same condition. *)
Definition in_step (a0 b0 : ostream) {A} (m : io A) : Prop :=
  forall a b, alike a0 b0 a b ->
    fst (m a) = fst (m b) /\ alike a0 b0 (snd (m a)) (snd (m b)).

(** Two writers whose members agree, on streams in the same condition. *)
Definition twins (a0 b0 : ostream) (w1 w2 : OSRMWriter.t) : Prop :=
  OSRMWriter.segment_start_ w1 = OSRMWriter.segment_start_ w2 /\
  OSRMWriter.header_offset_ w1 = OSRMWriter.header_offset_ w2 /\
  OSRMWriter.count_ w1 = OSRMWriter.count_ w2 /\
  OSRMWriter.history_ w1 = OSRMWriter.history_ w2 /\
  alike a0 b0 (OSRMWriter.stream_ w1) (OSRMWriter.stream_ w2).

(** The streams [a] and [b], reached from [a0] and [b0], when neither
    has failed: they stand at the same position, the same bytes were
    stored at the same offsets in the same order since the start, and
    they hold the same bytes if they started with the same bytes. *)
Definition agree (a0 b0 a b : ostream) : Prop :=
  failed a = false -> failed b = false ->
  ppos a = ppos b /\
  (exists n1 n2 : list event,
     trace a = n1 ++ trace a0 /\ trace b = n2 ++ trace b0 /\ stores n1 = stores n2) /\
  (content a0 = content b0 -> content a = content b).

(** Two writers that have counted and called the same, on streams
    related by [R]. *)
Definition paired (R : ostream -> ostream -> Prop) (w1 w2 : OSRMWriter.t) : Prop :=
  OSRMWriter.header_offset_ w1 = OSRMWriter.header_offset_ w2 /\
  OSRMWriter.count_ w1 = OSRMWriter.count_ w2 /\
  OSRMWriter.history_ w1 = OSRMWriter.history_ w2 /\
  R (OSRMWriter.stream_ w1) (OSRMWriter.stream_ w2).

(** The items a block passes to [Write], in order, when it runs from the
    writer [w]; what the block does may depend on what [Count()]
    returns. *)
Fixpoint passed (P : policies) {T} `{Trivial T} (b : block T) (w : OSRMWriter.t) : list T :=
  match b with
  | End => []
  | Throw => []
  | CallWrite item rest => item :: passed P rest (snd (OSRMWriter.Write P item w))
  | CallCount rest => passed P (rest (fst (OSRMWriter.Count w))) w
  end.

(** A stream that has failed keeps its bytes and its position. *)
Definition frozen (c : list byte) (p : Z) (st : ostream) : Prop :=
  failed st = true /\ content st = c /\ ppos st = p.

(** From [s0] to [st] the sink lost no byte, and the bytes it held
    before offset [p] are the ones it holds there now. *)
Definition kept_below (p : Z) (s0 st : ostream) : Prop :=
  (length (content s0) <= length (content st))%nat /\
  forall i : nat, Z.of_nat i < p -> (i < length (content s0))%nat ->
    content st !! i = content s0 !! i.

(** The bytes before [p] are kept since [s0], and a good stream stands
    at or after [p]. *)
Definition guards (p : Z) (s0 st : ostream) : Prop :=
  kept_below p s0 st /\ (failed st = false -> p <= ppos st).

(** * Properties *)

(** ** Bytes stored at an offset *)

Section Overwrite.

Implicit Types (p q : nat) (a b d : list byte).

Lemma length_pad p d : length (pad p d) = p.
Proof. unfold pad. rewrite length_app, length_take, length_replicate. lia. Qed.

Lemma pad_full d : pad (length d) d = d.
Proof.
  unfold pad. rewrite firstn_all, Nat.sub_diag. simpl. apply app_nil_r.
Qed.

Lemma pad_prefix p a d : length a = p -> pad p (a ++ d) = a.
Proof.
  intros Hp. unfold pad.
  rewrite take_app_length' by (symmetry; exact Hp).
  rewrite length_app.
  replace (p - (length a + length d))%nat with 0%nat by lia.
  simpl. apply app_nil_r.
Qed.

(** Reading back what was stored. *)
Lemma drop_overwrite p a d :
  drop p (overwrite p a d) = a ++ drop (p + length a) d.
Proof.
  unfold overwrite. apply drop_app_length'. symmetry. apply length_pad.
Qed.

Lemma take_drop_overwrite p a d :
  take (length a) (drop p (overwrite p a d)) = a.
Proof. rewrite drop_overwrite. apply take_app_length. Qed.

Lemma pad_overwrite p a d : pad p (overwrite p a d) = pad p d.
Proof. unfold overwrite. apply pad_prefix, length_pad. Qed.

Lemma pad_app_overwrite p a d :
  pad (p + length a) (overwrite p a d) = pad p d ++ a.
Proof.
  unfold overwrite. rewrite app_assoc. apply pad_prefix.
  rewrite length_app, length_pad. reflexivity.
Qed.

(** Two writes one after the other are one write of both. *)
Lemma overwrite_append p a b d :
  overwrite (p + length a) b (overwrite p a d) = overwrite p (a ++ b) d.
Proof.
  unfold overwrite at 1. rewrite pad_app_overwrite.
  replace (drop (p + length a + length b) (overwrite p a d))
    with (drop (p + length (a ++ b)) d).
  - unfold overwrite. rewrite <- !app_assoc. reflexivity.
  - rewrite length_app.
    rewrite <- (drop_drop (overwrite p a d) (length b) (p + length a)).
    rewrite <- (drop_drop (overwrite p a d) (length a) p).
    rewrite drop_overwrite, drop_app_length, drop_drop.
    f_equal. lia.
Qed.

(** Writing over the head of an earlier write. *)
Lemma overwrite_head p a a' b d :
  length a' = length a ->
  overwrite p a' (overwrite p (a ++ b) d) = overwrite p (a' ++ b) d.
Proof.
  intros Hlen. unfold overwrite at 1. rewrite pad_overwrite.
  rewrite <- (drop_drop (overwrite p (a ++ b) d) (length a') p).
  rewrite drop_overwrite, Hlen, <- app_assoc, drop_app_length.
  unfold overwrite. rewrite !length_app, Hlen, <- app_assoc. reflexivity.
Qed.

Lemma overwrite_at_end a d : overwrite (length d) a d = d ++ a.
Proof.
  unfold overwrite. rewrite pad_full, drop_ge by lia. rewrite app_nil_r. reflexivity.
Qed.

End Overwrite.

(** ** Machine integers *)

Lemma to_size_t_small z : 0 <= z < 2 ^ 64 -> to_size_t z = z.
Proof. intros Hz. unfold to_size_t, SIZE_WIDTH. apply Z.mod_small. exact Hz. Qed.

Lemma to_streamoff_small z : 0 <= z <= STREAMOFF_MAX -> to_streamoff z = z.
Proof.
  unfold to_streamoff, SIZE_WIDTH, STREAMOFF_MAX. intros Hz.
  rewrite Z.mod_small; lia.
Qed.

Lemma to_streamoff_large z : STREAMOFF_MAX < z < 2 ^ 64 -> to_streamoff z < 0.
Proof.
  unfold to_streamoff, SIZE_WIDTH, STREAMOFF_MAX. intros Hz.
  replace (z + 2 ^ 63) with (z - 2 ^ 63 + 1 * 2 ^ 64) by lia.
  rewrite Z.mod_add by lia. rewrite Z.mod_small; lia.
Qed.

Lemma to_unsigned_to_size_t z : to_unsigned (to_size_t z) = to_unsigned z.
Proof.
  unfold to_unsigned, to_size_t, UNSIGNED_WIDTH, SIZE_WIDTH.
  rewrite (Z.mod_eq z (2 ^ 64)) by lia.
  replace (z - 2 ^ 64 * (z / 2 ^ 64)) with (z + (- 2 ^ 32 * (z / 2 ^ 64)) * 2 ^ 32) by lia.
  apply Z_mod_plus_full.
Qed.

Lemma le_combine_unsigned_repr v : le_combine (unsigned_repr v) = to_unsigned v.
Proof. unfold unsigned_repr, to_unsigned, UNSIGNED_WIDTH. apply le_combine_split. Qed.

Lemma length_unsigned_repr v : length (unsigned_repr v) = 4%nat.
Proof. apply length_le_split. Qed.

(** ** Stream operations *)

(** A write that leaves the stream good stored its bytes. *)
Lemma write_good bs s :
  failed (snd (write bs s)) = false ->
  failed s = false /\ ppos s + Z.of_nat (length bs) <= limit s /\
  snd (write bs s) = store bs s.
Proof.
  unfold write. simpl. destruct (failed s) eqn:Hf; simpl.
  - intros H. simpl in H. congruence.
  - destruct (Z.leb_spec (ppos s + Z.of_nat (length bs)) (limit s)); simpl.
    + intros _. auto.
    + discriminate.
Qed.

Lemma write_within bs s :
  failed s = false -> ppos s + Z.of_nat (length bs) <= limit s ->
  write bs s = (tt, store bs s).
Proof.
  intros Hf Hl. unfold write. rewrite Hf.
  destruct (Z.leb_spec (ppos s + Z.of_nat (length bs)) (limit s)); [reflexivity | lia].
Qed.

(** What the sink takes of a write that does not fit. *)
Lemma store_fitting_cases bs s :
  store_fitting bs s = s \/
  (fitting bs s <> [] /\ store_fitting bs s = store (fitting bs s) s).
Proof.
  unfold store_fitting. destruct (fitting bs s) as [| x part] eqn:E.
  - left. reflexivity.
  - right. split; [discriminate | reflexivity].
Qed.

Lemma store_fitting_frame bs s :
  failed (store_fitting bs s) = failed s /\
  seekable (store_fitting bs s) = seekable s /\
  limit (store_fitting bs s) = limit s.
Proof.
  destruct (store_fitting_cases bs s) as [-> | [_ ->]]; repeat split.
Qed.

Lemma seekp_good p s :
  failed (snd (seekp p s)) = false ->
  failed s = false /\ seekable s = true /\ 0 <= p /\ snd (seekp p s) = set_ppos p s.
Proof.
  unfold seekp. simpl. destruct (failed s) eqn:Hf; simpl.
  - intros H. simpl in H. congruence.
  - destruct (seekable s); simpl; [| discriminate].
    destruct (Z.leb_spec 0 p); simpl; [| discriminate].
    intros _. auto.
Qed.

Lemma tellp_good s :
  failed s = false -> seekable s = true -> tellp s = (ppos s, s).
Proof. intros Hf Hs. unfold tellp. rewrite Hf, Hs. reflexivity. Qed.

(** The failure flag is sticky. *)
Lemma write_sticky bs s : failed s = true -> failed (snd (write bs s)) = true.
Proof. intros Hf. unfold write. simpl. rewrite Hf. exact Hf. Qed.

Lemma seekp_sticky p s : failed s = true -> failed (snd (seekp p s)) = true.
Proof. intros Hf. unfold seekp. simpl. rewrite Hf. exact Hf. Qed.

Lemma tellp_state s : failed (snd (tellp s)) = failed s.
Proof. unfold tellp. destruct (negb (failed s) && seekable s); reflexivity. Qed.

(** ** The lifetime of a writer *)

Section LifetimeFacts.

Context (P : policies).
Context {Header T : Type} `{Trivial Header} `{Trivial T}.

Lemma run_block_writes (items : list T) (w : OSRMWriter.t) :
  run_block P (writes items) w = (Completed, write_all P items w).
Proof.
  revert w. unfold writes, write_all.
  induction items as [| item items IH]; intros w; cbn [fold_right fold_left run_block].
  - reflexivity.
  - destruct (OSRMWriter.Write P item w) as [u w'] eqn:E.
    rewrite IH. reflexivity.
Qed.

Lemma lifetime_unfold (s : ostream) (h : Header) (items : list T) :
  lifetime P s h items =
  fst (OSRMWriter.dtor P (write_all P items (OSRMWriter.ctor P s h))).
Proof.
  unfold lifetime, scope. rewrite run_block_writes.
  destruct (OSRMWriter.dtor P _). reflexivity.
Qed.

(** A property of the writer that every [Write] keeps holds after any
    block. *)
Lemma run_block_preserves (Inv : OSRMWriter.t -> Prop) :
  (forall (item : T) w, Inv w -> Inv (snd (OSRMWriter.Write P item w))) ->
  forall (b : block T) w, Inv w -> Inv (snd (run_block P b w)).
Proof.
  intros Hstep b.
  induction b as [| | item rest IH | rest IH]; intros w Hw; cbn [run_block].
  - exact Hw.
  - exact Hw.
  - specialize (Hstep item w Hw).
    destruct (OSRMWriter.Write P item w) as [u w']. apply IH. exact Hstep.
  - apply IH. exact Hw.
Qed.

(** [Write] and [Count] leave the members set by the constructor alone. *)
Lemma Write_members (item : T) (w : OSRMWriter.t) :
  OSRMWriter.segment_start_ (snd (OSRMWriter.Write P item w)) = OSRMWriter.segment_start_ w /\
  OSRMWriter.header_offset_ (snd (OSRMWriter.Write P item w)) = OSRMWriter.header_offset_ w.
Proof.
  unfold OSRMWriter.Write. destruct (type_Write (Type_ P) item _ _ _ _). split; reflexivity.
Qed.

End LifetimeFacts.

(** The item policies and the running count. *)

Lemma Write_trivial P {T} `{Trivial T} (item : T) (w : OSRMWriter.t) :
  Type_ P = TrivialTypeWritePolicy ->
  snd (OSRMWriter.Write P item w) =
  OSRMWriter.mk (snd (write (object_repr item) (OSRMWriter.stream_ w)))
    (OSRMWriter.segment_start_ w) (OSRMWriter.header_offset_ w)
    (to_size_t (OSRMWriter.count_ w + 1)) (OSRMWriter.history_ w ++ [TypeCall]).
Proof. intros HT. unfold OSRMWriter.Write. rewrite HT. reflexivity. Qed.

Lemma count_write_all_trivial P {T} `{Trivial T} (items : list T) (w : OSRMWriter.t) :
  Type_ P = TrivialTypeWritePolicy ->
  to_size_t (OSRMWriter.count_ w) = OSRMWriter.count_ w ->
  OSRMWriter.count_ (write_all P items w) =
  to_size_t (OSRMWriter.count_ w + Z.of_nat (length items)).
Proof.
  intros HT. revert w. unfold write_all.
  induction items as [| item items IH]; intros w Hw; cbn [fold_left].
  - simpl. rewrite Z.add_0_r. symmetry. exact Hw.
  - rewrite IH; rewrite (Write_trivial P item w HT); cbn [OSRMWriter.count_].
    + unfold to_size_t.
      rewrite Z.add_mod_idemp_l by (unfold SIZE_WIDTH; lia).
      f_equal. simpl length. lia.
    + unfold to_size_t. apply Z.mod_mod. unfold SIZE_WIDTH. lia.
Qed.

Lemma count_ctor P {Header} `{Trivial Header} (s : ostream) (h : Header) :
  OSRMWriter.count_ (OSRMWriter.ctor P s h) = 0.
Proof.
  unfold OSRMWriter.ctor. destruct (tellp s) as [pos s1].
  destruct (header_Write (Header_ P) h _ _ s1). reflexivity.
Qed.

Lemma history_ctor P {Header} `{Trivial Header} (s : ostream) (h : Header) :
  OSRMWriter.history_ (OSRMWriter.ctor P s h) = [HeaderCall].
Proof.
  unfold OSRMWriter.ctor. destruct (tellp s) as [pos s1].
  destruct (header_Write (Header_ P) h _ _ s1). reflexivity.
Qed.

(** C4. On a counted-record writer (EdgeWriter, NodeWriter), after [k]
    calls of [Write] on a freshly constructed writer, and before the
    destructor runs, [Count()] returns [k] ([k] being a value of
    [std::size_t]); [Count()] gives the writer back as it was; and one
    more [Write] does not make the count smaller. *)
Theorem count_after_k_writes W {Header T} `{Trivial Header} `{Trivial T}
    (s : ostream) (h : Header) (items : list T) (item : T) :
  In W counted_record_writers ->
  Z.of_nat (length items) < 2 ^ 64 ->
  let w := write_all W items (OSRMWriter.ctor W s h) in
  OSRMWriter.Count w = (Z.of_nat (length items), w) /\
  (forall w' : OSRMWriter.t, snd (OSRMWriter.Count w') = w') /\
  (Z.of_nat (length items) + 1 < 2 ^ 64 ->
   OSRMWriter.count_ w <= OSRMWriter.count_ (snd (OSRMWriter.Write W item w))).
Proof.
  intros HW.
  assert (HT : Type_ W = TrivialTypeWritePolicy).
  { destruct HW as [<- | [<- | []]]; reflexivity. }
  intros Hk w.
  assert (Hc : OSRMWriter.count_ w = Z.of_nat (length items)).
  { unfold w. rewrite count_write_all_trivial;
      rewrite ?count_ctor; [| exact HT | reflexivity].
    apply to_size_t_small. lia. }
  split; [| split].
  - unfold OSRMWriter.Count. rewrite Hc. reflexivity.
  - reflexivity.
  - intros Hk1. rewrite (Write_trivial W item w HT).
    cbn [OSRMWriter.count_]. rewrite Hc, to_size_t_small; lia.
Qed.

(** ** The destructor *)

Lemma scope_unfold P {Header T} `{Trivial Header} `{Trivial T}
    (s : ostream) (h : Header) (b : block T) :
  let w := snd (run_block P b (OSRMWriter.ctor P s h)) in
  scope P s h b =
  mk_outcome (fst (OSRMWriter.dtor P w))
             (fst (run_block P b (OSRMWriter.ctor P s h)))
             (snd (OSRMWriter.dtor P w)).
Proof.
  unfold scope. destruct (run_block P b _) as [e w]. simpl.
  destruct (OSRMWriter.dtor P w). reflexivity.
Qed.

Lemma dtor_history P (w : OSRMWriter.t) :
  snd (OSRMWriter.dtor P w) = OSRMWriter.history_ w ++ [FinalizeCall].
Proof.
  unfold OSRMWriter.dtor. destruct (finalize_Write (Finalize_ P) _ _ _ _). reflexivity.
Qed.

Lemma run_block_history P {T} `{Trivial T} (b : block T) (w : OSRMWriter.t) :
  exists k : nat,
    OSRMWriter.history_ (snd (run_block P b w)) =
    OSRMWriter.history_ w ++ repeat TypeCall k.
Proof.
  revert w. induction b as [| | item rest IH | rest IH]; intros w; cbn [run_block].
  - exists 0%nat. simpl. symmetry. apply app_nil_r.
  - exists 0%nat. simpl. symmetry. apply app_nil_r.
  - destruct (OSRMWriter.Write P item w) as [u w'] eqn:E.
    destruct (IH w') as [k Hk]. exists (S k). rewrite Hk.
    assert (Hw' : OSRMWriter.history_ w' = OSRMWriter.history_ w ++ [TypeCall]).
    { unfold OSRMWriter.Write in E. destruct (type_Write (Type_ P) item _ _ _ _).
      inversion E. reflexivity. }
    rewrite Hw', <- app_assoc. reflexivity.
  - apply IH.
Qed.

Lemma count_occ_repeat_type k :
  count_occ policy_call_eq_dec (repeat TypeCall k) FinalizeCall = 0%nat.
Proof. induction k as [| k IH]; simpl; [reflexivity | exact IH]. Qed.

(** C7. Whatever the three policies of the writer, the header and the
    block of the caller, and on either way out of the block (it runs to
    its end, or an exception leaves it): the stream the writer hands
    back is the result of one run of the finalize policy, on the stream
    as the block left it, with [segment_start_], [header_offset_] and
    the count at the exit as arguments.  Up to the exit the finalize
    policy has no part: with any other finalizer the block leaves the
    same writer.  So whatever counts the runs of the finalizer counts
    one run per lifetime.  When [Write] was never called the finalizer
    runs as well, with count 0.  The policy calls of the object read:
    header once, first; finalize once, last. *)
Theorem finalize_exactly_once P {Header T} `{Trivial Header} `{Trivial T}
    (s : ostream) (h : Header) (b : block T) :
  let w0 := OSRMWriter.ctor P s h in
  let w := snd (run_block P b w0) in
  let o := scope P s h b in
  let finalizer := finalize_Write (Finalize_ P)
                     (OSRMWriter.segment_start_ w0) (OSRMWriter.header_offset_ w0) in
  out o = snd (finalizer (OSRMWriter.count_ w) (OSRMWriter.stream_ w)) /\
  (forall FP : FinalizeWritePolicy,
     run_block (Policies (Header_ P) (Type_ P) FP) b
       (OSRMWriter.ctor (Policies (Header_ P) (Type_ P) FP) s h) =
     run_block P b w0) /\
  (forall tick : ostream -> nat,
     counts_finalizer P Header T tick -> tick (out o) = S (tick s)) /\
  (how (scope P s h (End (T := T))) = Completed /\
   out (scope P s h (End (T := T))) = snd (finalizer 0 (OSRMWriter.stream_ w0))) /\
  (how (scope P s h (Throw (T := T))) = Unwound /\
   out (scope P s h (Throw (T := T))) = snd (finalizer 0 (OSRMWriter.stream_ w0))) /\
  count_occ policy_call_eq_dec (calls o) FinalizeCall = 1%nat /\
  (exists k : nat, calls o = HeaderCall :: repeat TypeCall k ++ [FinalizeCall]) /\
  calls (scope P s h (End (T := T))) = [HeaderCall; FinalizeCall] /\
  calls (scope P s h (Throw (T := T))) = [HeaderCall; FinalizeCall].
Proof.
  intros w0 w o finalizer.
  assert (Hout : forall b' : block T,
            out (scope P s h b') =
            snd (finalizer (OSRMWriter.count_ (snd (run_block P b' w0)))
                           (OSRMWriter.stream_ (snd (run_block P b' w0))))).
  { intros b'. rewrite scope_unfold. cbn [out]. fold w0.
    destruct (run_block_preserves P
                (fun w' => OSRMWriter.segment_start_ w' = OSRMWriter.segment_start_ w0 /\
                           OSRMWriter.header_offset_ w' = OSRMWriter.header_offset_ w0)
                (fun item w' Hw' =>
                   match Write_members P item w', Hw' with
                   | conj E1 E2, conj E3 E4 => conj (eq_trans E1 E3) (eq_trans E2 E4)
                   end)
                b' w0 (conj eq_refl eq_refl)) as [E1 E2].
    unfold OSRMWriter.dtor, finalizer. rewrite E1, E2.
    destruct (finalize_Write (Finalize_ P) _ _ _ _). reflexivity. }
  assert (Hcalls : exists k : nat,
             calls o = HeaderCall :: repeat TypeCall k ++ [FinalizeCall]).
  { unfold o. rewrite scope_unfold. simpl. rewrite dtor_history.
    destruct (run_block_history P b (OSRMWriter.ctor P s h)) as [k Hk].
    exists k. rewrite Hk, history_ctor. reflexivity. }
  split; [exact (Hout b) |].
  split.
  { intros FP.
    change (OSRMWriter.ctor (Policies (Header_ P) (Type_ P) FP) s h) with w0.
    generalize w0. clear.
    induction b as [| | item rest IH | rest IH]; intros w1; cbn [run_block].
    - reflexivity.
    - reflexivity.
    - change (OSRMWriter.Write (Policies (Header_ P) (Type_ P) FP) item w1)
        with (OSRMWriter.Write P item w1).
      destruct (OSRMWriter.Write P item w1) as [u w2]. apply IH.
    - apply IH. }
  split.
  { intros tick (Htell & Hheader & Htype & Hfinal).
    unfold o. rewrite (Hout b). unfold finalizer. rewrite Hfinal. f_equal.
    apply (run_block_preserves P (fun w' => tick (OSRMWriter.stream_ w') = tick s)).
    - intros item w' Hw'. unfold OSRMWriter.Write.
      pose proof (Htype item (OSRMWriter.segment_start_ w') (OSRMWriter.header_offset_ w')
                    (OSRMWriter.count_ w') (OSRMWriter.stream_ w')) as Hstep.
      destruct (type_Write (Type_ P) item _ _ _ _) as [written st']. cbn [snd] in *.
      cbn [OSRMWriter.stream_]. congruence.
    - unfold w0, OSRMWriter.ctor.
      pose proof (Htell s) as H1. destruct (tellp s) as [pos s1]. cbn [snd] in H1.
      pose proof (Hheader h (to_size_t pos) 0 s1) as H2.
      destruct (header_Write (Header_ P) h (to_size_t pos) 0 s1) as [off s2].
      cbn [snd] in H2. cbn [OSRMWriter.stream_]. congruence. }
  split.
  { split; [rewrite scope_unfold; reflexivity |].
    rewrite (Hout End). cbn [run_block snd]. unfold w0. rewrite count_ctor. reflexivity. }
  split.
  { split; [rewrite scope_unfold; reflexivity |].
    rewrite (Hout Throw). cbn [run_block snd]. unfold w0. rewrite count_ctor. reflexivity. }
  split; [| split; [exact Hcalls | split]].
  - destruct Hcalls as [k ->]. simpl.
    rewrite count_occ_app, count_occ_repeat_type. reflexivity.
  - rewrite scope_unfold. simpl. rewrite dtor_history, history_ctor. reflexivity.
  - rewrite scope_unfold. simpl. rewrite dtor_history, history_ctor. reflexivity.
Qed.

(** The length-prefix finalizer, step by step, on a stream that it
    leaves good. *)
Lemma finalize_good (ss ho c : Z) (s : ostream) :
  let target := to_streamoff (to_size_t (ss + ho)) in
  let s' := snd (finalize_Write LengthPrefixFinalizeWritePolicy ss ho c s) in
  failed s' = false ->
  failed s = false /\ seekable s = true /\ 0 <= target /\ 0 <= ppos s /\
  target + 4 <= limit s /\
  s' = mk_ostream
         (overwrite (Z.to_nat target) (unsigned_repr (to_unsigned c)) (content s))
         (ppos s) false true (limit s)
         (Stored target (unsigned_repr (to_unsigned c)) :: trace s).
Proof.
  intros target s'. subst s'.
  unfold LengthPrefixFinalizeWritePolicy, finalize_Write.
  unfold mbind, io_bind, mret, io_ret.
  destruct (tellp s) as [here s1] eqn:Et.
  destruct (seekp target s1) as [u1 s2] eqn:Es1. fold target. rewrite Es1.
  destruct (write (unsigned_repr (to_unsigned c)) s2) as [u2 s3] eqn:Ew.
  destruct (seekp here s3) as [u3 s4] eqn:Es2. simpl.
  intros Hf.
  assert (H4 := seekp_good here s3). rewrite Es2 in H4. cbn [snd] in H4.
  destruct (H4 Hf) as (Hf3 & Hsk3 & Hhere & ->).
  assert (H3 := write_good (unsigned_repr (to_unsigned c)) s2).
  rewrite Ew in H3. cbn [snd] in H3.
  destruct (H3 Hf3) as (Hf2 & Hlim & ->).
  assert (H2 := seekp_good target s1). rewrite Es1 in H2. cbn [snd] in H2.
  destruct (H2 Hf2) as (Hf1 & Hsk1 & Htarget & ->).
  assert (Hfs : failed s = false).
  { rewrite <- (tellp_state s), Et. exact Hf1. }
  assert (Hsks : seekable s = true).
  { unfold tellp in Et. rewrite Hfs in Et. simpl in Et.
    destruct (seekable s) eqn:Hq; [reflexivity |].
    inversion Et; subst here s1. simpl in Hsk1. congruence. }
  rewrite (tellp_good s Hfs Hsks) in Et. inversion Et; subst here s1.
  rewrite length_unsigned_repr in Hlim. simpl in Hlim.
  repeat split; try assumption; try lia.
  unfold set_ppos, store. simpl. rewrite Hfs, Hsks. reflexivity.
Qed.

Lemma seekp_within p s :
  failed s = false -> seekable s = true -> 0 <= p -> seekp p s = (tt, set_ppos p s).
Proof.
  intros Hf Hsk Hp. unfold seekp. rewrite Hf, Hsk.
  destruct (Z.leb_spec 0 p); [reflexivity | lia].
Qed.

Lemma finalize_within (ss ho c : Z) (s : ostream) :
  let target := to_streamoff (to_size_t (ss + ho)) in
  failed s = false -> seekable s = true -> 0 <= ppos s ->
  0 <= target -> target + 4 <= limit s ->
  snd (finalize_Write LengthPrefixFinalizeWritePolicy ss ho c s) =
  mk_ostream
    (overwrite (Z.to_nat target) (unsigned_repr (to_unsigned c)) (content s))
    (ppos s) false true (limit s)
    (Stored target (unsigned_repr (to_unsigned c)) :: trace s).
Proof.
  intros target Hf Hsk Hpos Ht Hlim.
  unfold LengthPrefixFinalizeWritePolicy, finalize_Write.
  unfold mbind, io_bind, mret, io_ret.
  rewrite (tellp_good s Hf Hsk). fold target.
  rewrite (seekp_within target s Hf Hsk Ht).
  rewrite write_within;
    [| exact Hf | rewrite length_unsigned_repr; cbn [set_ppos ppos limit]; lia].
  rewrite seekp_within; [| exact Hf | exact Hsk | exact Hpos].
  unfold set_ppos, store. cbn [failed seekable ppos content limit trace snd].
  rewrite Hf, Hsk. reflexivity.
Qed.

Lemma dtor_stream P (w : OSRMWriter.t) :
  fst (OSRMWriter.dtor P w) =
  snd (finalize_Write (Finalize_ P) (OSRMWriter.segment_start_ w) (OSRMWriter.header_offset_ w)
         (OSRMWriter.count_ w) (OSRMWriter.stream_ w)).
Proof.
  unfold OSRMWriter.dtor. destruct (finalize_Write (Finalize_ P) _ _ _ _). reflexivity.
Qed.

(** Either finalizer of this file, when it leaves the stream good,
    leaves the put position where it found it. *)
Lemma dtor_restores_position P (w : OSRMWriter.t) :
  In (Finalize_ P) finalize_policies ->
  failed (fst (OSRMWriter.dtor P w)) = false ->
  ppos (fst (OSRMWriter.dtor P w)) = ppos (OSRMWriter.stream_ w).
Proof.
  intros HFP. rewrite dtor_stream.
  destruct HFP as [E | [E | []]]; rewrite <- E.
  - reflexivity.
  - intros Hgood. apply finalize_good in Hgood.
    destruct Hgood as (_ & _ & _ & _ & _ & ->). reflexivity.
Qed.

(** On a stream that has failed no operation moves the put position. *)
Lemma write_stuck p bs st :
  failed st = true /\ ppos st = p ->
  failed (snd (write bs st)) = true /\ ppos (snd (write bs st)) = p.
Proof. intros [Hf Hp]. unfold write. cbn [snd]. rewrite Hf. split; assumption. Qed.

Lemma seekp_stuck p q st :
  failed st = true /\ ppos st = p ->
  failed (snd (seekp q st)) = true /\ ppos (snd (seekp q st)) = p.
Proof. intros [Hf Hp]. unfold seekp. cbn [snd]. rewrite Hf. split; assumption. Qed.

Lemma tellp_stuck p st :
  failed st = true /\ ppos st = p ->
  failed (snd (tellp st)) = true /\ ppos (snd (tellp st)) = p.
Proof. intros [Hf Hp]. unfold tellp. rewrite Hf. split; assumption. Qed.

(** C9. When the destructor of a counted-record writer runs with a
    count of 2^32 or more, on a good, seekable stream whose sink has
    room for the four bytes at the placeholder: the finalizer checks
    nothing, stores the four bytes of the count modulo 2^32 at the
    placeholder, which differ from the count, and the stream reports no
    failure. *)
Theorem finalize_narrows_count W (w : OSRMWriter.t) :
  In W counted_record_writers ->
  let s := OSRMWriter.stream_ w in
  let target :=
    to_streamoff (to_size_t (OSRMWriter.segment_start_ w + OSRMWriter.header_offset_ w)) in
  let s' := fst (OSRMWriter.dtor W w) in
  failed s = false -> seekable s = true -> 0 <= ppos s ->
  0 <= target -> target + 4 <= limit s ->
  2 ^ 32 <= OSRMWriter.count_ w ->
  failed s' = false /\
  trace s' = Stored target (unsigned_repr (OSRMWriter.count_ w mod 2 ^ 32)) :: trace s /\
  le_combine (take 4 (from target s')) = OSRMWriter.count_ w mod 2 ^ 32 /\
  le_combine (take 4 (from target s')) <> OSRMWriter.count_ w.
Proof.
  intros HW.
  assert (EW : W = EdgeWriter) by (destruct HW as [<- | [<- | []]]; reflexivity).
  subst W. intros s target s' Hf Hsk Hpos Ht Hlim Hbig.
  assert (Hs' : s' = mk_ostream
            (overwrite (Z.to_nat target)
               (unsigned_repr (to_unsigned (OSRMWriter.count_ w))) (content s))
            (ppos s) false true (limit s)
            (Stored target (unsigned_repr (to_unsigned (OSRMWriter.count_ w))) :: trace s)).
  { unfold s'. rewrite dtor_stream. apply finalize_within; assumption. }
  assert (Hread : le_combine (take 4 (from target s')) = OSRMWriter.count_ w mod 2 ^ 32).
  { rewrite Hs'. unfold from. cbn [content].
    rewrite <- (length_unsigned_repr (to_unsigned (OSRMWriter.count_ w))) at 1.
    rewrite take_drop_overwrite, le_combine_unsigned_repr.
    unfold to_unsigned, UNSIGNED_WIDTH. apply Z.mod_mod. lia. }
  split; [| split; [| split]].
  - rewrite Hs'. reflexivity.
  - rewrite Hs'. reflexivity.
  - exact Hread.
  - rewrite Hread.
    pose proof (Z.mod_pos_bound (OSRMWriter.count_ w) (2 ^ 32) ltac:(lia)). lia.
Qed.

(** ** Item writes of the trivial policy *)

Lemma stream_write_all_trivial P {T} `{Trivial T} (items : list T) (w : OSRMWriter.t) :
  Type_ P = TrivialTypeWritePolicy ->
  OSRMWriter.stream_ (write_all P items w) =
  put_all (map object_repr items) (OSRMWriter.stream_ w).
Proof.
  intros HT. revert w. unfold write_all, put_all.
  induction items as [| item items IH]; intros w; cbn [fold_left map].
  - reflexivity.
  - rewrite IH, (Write_trivial P item w HT). reflexivity.
Qed.

Lemma members_write_all P {T} `{Trivial T} (items : list T) (w : OSRMWriter.t) :
  OSRMWriter.segment_start_ (write_all P items w) = OSRMWriter.segment_start_ w /\
  OSRMWriter.header_offset_ (write_all P items w) = OSRMWriter.header_offset_ w.
Proof.
  revert w. unfold write_all.
  induction items as [| item items IH]; intros w; cbn [fold_left].
  - split; reflexivity.
  - destruct (IH (snd (OSRMWriter.Write P item w))) as [-> ->].
    apply Write_members.
Qed.

Lemma length_concat_repr {T} `{Trivial T} (items : list T) :
  length (concat (map object_repr items)) = (sizeof T * length items)%nat.
Proof.
  induction items as [| item items IH]; cbn [map concat length].
  - lia.
  - rewrite length_app, object_repr_length, IH. lia.
Qed.

Lemma put_all_sticky bss s : failed s = true -> failed (put_all bss s) = true.
Proof.
  revert s. unfold put_all. induction bss as [| bs bss IH]; intros s Hf; cbn [fold_left].
  - exact Hf.
  - apply IH, write_sticky, Hf.
Qed.

(** Writes that leave the stream good stored all their bytes, one
    string after the other. *)
Lemma put_all_good bss : forall s (p0 : nat) (a d0 : list byte),
  failed (put_all bss s) = false ->
  content s = overwrite p0 a d0 ->
  ppos s = Z.of_nat (p0 + length a) ->
  failed s = false /\
  content (put_all bss s) = overwrite p0 (a ++ concat bss) d0 /\
  ppos (put_all bss s) = ppos s + Z.of_nat (length (concat bss)) /\
  (ppos s <= limit s -> ppos (put_all bss s) <= limit s) /\
  seekable (put_all bss s) = seekable s /\
  limit (put_all bss s) = limit s.
Proof.
  unfold put_all. induction bss as [| bs bss IH]; intros s p0 a d0 Hgood Hc Hp;
    cbn [fold_left concat] in *.
  - rewrite app_nil_r, Z.add_0_r. repeat split; auto.
  - assert (Hw : failed (snd (write bs s)) = false).
    { destruct (failed (snd (write bs s))) eqn:E; [| reflexivity].
      pose proof (put_all_sticky bss _ E) as Hx. unfold put_all in Hx. congruence. }
    destruct (write_good bs s Hw) as (Hf & Hlim & Hst).
    rewrite Hst in *.
    destruct (IH (store bs s) p0 (a ++ bs) d0 Hgood) as (_ & Hc' & Hp' & Hl' & Hsk' & Hlm').
    + cbn [store content]. rewrite Hc, Hp, Nat2Z.id. apply overwrite_append.
    + cbn [store ppos]. rewrite Hp, length_app. lia.
    + cbn [store ppos limit seekable] in *.
      rewrite Hc', Hp', Hsk', Hlm', <- app_assoc, length_app.
      repeat split; auto; lia.
Qed.

(** The other way round: on a good stream whose sink has room, the
    writes store all their bytes. *)
Lemma put_all_within bss : forall s,
  failed s = false ->
  ppos s + Z.of_nat (length (concat bss)) <= limit s ->
  failed (put_all bss s) = false.
Proof.
  unfold put_all. induction bss as [| bs bss IH]; intros s Hf Hlim;
    cbn [fold_left concat] in *.
  - exact Hf.
  - rewrite length_app in Hlim.
    rewrite write_within by (auto; lia). cbn [snd]. apply IH.
    + exact Hf.
    + cbn [store ppos limit]. lia.
Qed.

Lemma tellp_frame s :
  content (snd (tellp s)) = content s /\ ppos (snd (tellp s)) = ppos s /\
  failed (snd (tellp s)) = failed s /\ seekable (snd (tellp s)) = seekable s /\
  limit (snd (tellp s)) = limit s.
Proof. unfold tellp. destruct (negb (failed s) && seekable s); repeat split. Qed.

(** ** Reading back *)

Lemma read_records_concat (w : nat) (bss : list (list byte)) (rest : list byte) :
  Forall (fun bs => length bs = w) bss ->
  read_records w (length bss) (concat bss ++ rest) = Some bss.
Proof.
  induction 1 as [| bs bss Hbs _ IH]; cbn [length concat read_records].
  - reflexivity.
  - rewrite <- app_assoc.
    destruct (Nat.ltb_spec (length (bs ++ concat bss ++ rest)) w) as [Hlt | _].
    + rewrite length_app in Hlt. lia.
    + rewrite drop_app_length' by (symmetry; exact Hbs). rewrite IH.
      rewrite take_app_length' by (symmetry; exact Hbs). reflexivity.
Qed.

Lemma read_segment_concat (w : nat) (n : Z) (bss : list (list byte)) (rest : list byte) :
  Forall (fun bs => length bs = w) bss ->
  to_unsigned n = Z.of_nat (length bss) ->
  read_segment w (unsigned_repr n ++ concat bss ++ rest) =
  Some (Z.of_nat (length bss), bss).
Proof.
  intros Hw Hn. unfold read_segment.
  destruct (Nat.ltb_spec (length (unsigned_repr n ++ concat bss ++ rest)) 4) as [Hlt | _].
  - rewrite length_app, length_unsigned_repr in Hlt. lia.
  - rewrite take_app_length' by (rewrite length_unsigned_repr; reflexivity).
    rewrite drop_app_length' by (rewrite length_unsigned_repr; reflexivity).
    rewrite le_combine_unsigned_repr, Hn, Nat2Z.id.
    rewrite read_records_concat by exact Hw. reflexivity.
Qed.

(** ** The counted-record writer *)

Section CountedRecords.

Context {Header T : Type} `{Trivial Header} `{Trivial T}.

Lemma ctor_edge (s : ostream) (h : Header) :
  OSRMWriter.ctor EdgeWriter s h =
  OSRMWriter.mk (snd (write (unsigned_repr 0) (snd (tellp s))))
                (to_size_t (fst (tellp s))) 0 0 [HeaderCall].
Proof. unfold OSRMWriter.ctor. destruct (tellp s) as [pos s1]. reflexivity. Qed.

Lemma edge_lifetime_good (s : ostream) (h : Header) (items : list T) :
  stream_wf s ->
  failed (lifetime EdgeWriter s h items) = false ->
  failed s = false /\ seekable s = true /\
  content (lifetime EdgeWriter s h items) =
    overwrite (Z.to_nat (ppos s)) (segment_bytes items) (content s) /\
  ppos (lifetime EdgeWriter s h items) =
    ppos s + 4 + Z.of_nat (sizeof T * length items) /\
  ppos (lifetime EdgeWriter s h items) <= limit s.
Proof.
  intros [[Hp0 Hpmax] Hlmax]. rewrite lifetime_unfold, dtor_stream.
  destruct (members_write_all EdgeWriter items (OSRMWriter.ctor EdgeWriter s h))
    as [Hss Hho].
  rewrite Hss, Hho.
  rewrite count_write_all_trivial, stream_write_all_trivial
    by (rewrite ?ctor_edge; reflexivity).
  rewrite ctor_edge. cbn [OSRMWriter.stream_ OSRMWriter.segment_start_
    OSRMWriter.header_offset_ OSRMWriter.count_ Finalize_ EdgeWriter].
  destruct (tellp_frame s) as (Hc1 & Hp1 & Hf1 & Hsk1 & Hl1).
  set (s1 := snd (tellp s)) in *.
  set (bss := map object_repr items).
  intros Hgood. apply finalize_good in Hgood.
  destruct Hgood as (Hfe & Hske & Ht & Hpe & Hlim & ->). cbn [content ppos].
  assert (Hf2 : failed (snd (write (unsigned_repr 0) s1)) = false).
  { destruct (failed (snd (write (unsigned_repr 0) s1))) eqn:E; [| reflexivity].
    rewrite (put_all_sticky bss _ E) in Hfe. discriminate. }
  destruct (write_good _ _ Hf2) as (Hfs1 & Hlim1 & Hst).
  rewrite Hst in *. clear Hst Hf2.
  destruct (put_all_good bss (store (unsigned_repr 0) s1)
              (Z.to_nat (ppos s)) (unsigned_repr 0) (content s) Hfe)
    as (_ & Hce & Hppe & Hle & Hsk & Hl).
  { cbn [store content]. rewrite Hp1, Hc1. reflexivity. }
  { cbn [store ppos]. rewrite Hp1, length_unsigned_repr. lia. }
  cbn [store ppos seekable limit] in *.
  rewrite length_unsigned_repr in *.
  assert (Hfs : failed s = false) by congruence.
  assert (Hsks : seekable s = true) by congruence.
  assert (Hstart : to_streamoff (to_size_t (to_size_t (fst (tellp s)) + 0)) = ppos s).
  { rewrite (tellp_good s Hfs Hsks). cbn [fst]. unfold STREAMOFF_MAX in *.
    rewrite Z.add_0_r, !(to_size_t_small (ppos s)) by lia.
    apply to_streamoff_small. unfold STREAMOFF_MAX. lia. }
  rewrite Hstart in *.
  assert (Hlen : Z.of_nat (length (concat bss)) = Z.of_nat (sizeof T * length items)).
  { unfold bss. rewrite length_concat_repr. reflexivity. }
  split; [exact Hfs | split; [exact Hsks | split; [| split]]].
  - rewrite Hce. unfold segment_bytes. fold bss.
    rewrite Z.add_0_l, to_unsigned_to_size_t.
    apply overwrite_head. rewrite !length_unsigned_repr. reflexivity.
  - lia.
  - rewrite <- Hl1. apply Hle. lia.
Qed.

End CountedRecords.

Section CountedRecordsClaims.

Context {Header T : Type} `{Trivial Header} `{Trivial T}.

Lemma edge_lifetime_within (s : ostream) (h : Header) (items : list T) :
  stream_wf s -> failed s = false -> seekable s = true ->
  ppos s + 4 + Z.of_nat (sizeof T * length items) <= limit s ->
  failed (lifetime EdgeWriter s h items) = false.
Proof.
  intros [[Hp0 Hpmax] Hlmax] Hf Hsk Hroom. rewrite lifetime_unfold, dtor_stream.
  destruct (members_write_all EdgeWriter items (OSRMWriter.ctor EdgeWriter s h))
    as [Hss Hho].
  rewrite Hss, Hho.
  rewrite count_write_all_trivial, stream_write_all_trivial
    by (rewrite ?ctor_edge; reflexivity).
  rewrite ctor_edge. cbn [OSRMWriter.stream_ OSRMWriter.segment_start_
    OSRMWriter.header_offset_ OSRMWriter.count_ Finalize_ EdgeWriter].
  rewrite (tellp_good s Hf Hsk). cbn [fst snd].
  rewrite write_within by (rewrite ?length_unsigned_repr; auto; lia). cbn [snd].
  set (bss := map object_repr items).
  assert (Hlen : Z.of_nat (length (concat bss)) = Z.of_nat (sizeof T * length items)).
  { unfold bss. rewrite length_concat_repr. reflexivity. }
  assert (Hfe : failed (put_all bss (store (unsigned_repr 0) s)) = false).
  { apply put_all_within; [exact Hf |].
    cbn [store ppos limit]. rewrite length_unsigned_repr. lia. }
  destruct (put_all_good bss (store (unsigned_repr 0) s)
              (Z.to_nat (ppos s)) (unsigned_repr 0) (content s) Hfe)
    as (_ & _ & Hppe & _ & Hske & Hle).
  { reflexivity. }
  { cbn [store ppos]. rewrite length_unsigned_repr. lia. }
  cbn [store ppos seekable limit] in *. rewrite length_unsigned_repr in Hppe.
  assert (Hstart : to_streamoff (to_size_t (to_size_t (ppos s) + 0)) = ppos s).
  { unfold STREAMOFF_MAX in *.
    rewrite Z.add_0_r, !(to_size_t_small (ppos s)) by lia.
    apply to_streamoff_small. unfold STREAMOFF_MAX. lia. }
  rewrite finalize_within; rewrite ?Hstart; try reflexivity; try congruence; lia.
Qed.

(** C1, as amended. For every sequence of [N < 2^32] records written
    through a counted-record writer (EdgeWriter, NodeWriter) on a stream
    that reports no failure once the writer is gone: from the offset
    where the segment starts the stream holds the four bytes of [N]
    followed by the raw bytes of the records, nothing in between; a
    reader that takes the count and then that many records gets [N] and
    the records byte for byte; and on a stream that stood at its end the
    segment is all that was added. *)
Theorem counted_records_round_trip W (s : ostream) (h : Header) (items : list T) :
  In W counted_record_writers ->
  stream_wf s ->
  Z.of_nat (length items) < 2 ^ 32 ->
  let s' := lifetime W s h items in
  failed s' = false ->
  take (4 + sizeof T * length items) (from (ppos s) s') =
    unsigned_repr (Z.of_nat (length items)) ++ concat (map object_repr items) /\
  le_combine (take 4 (from (ppos s) s')) = Z.of_nat (length items) /\
  read_segment (sizeof T) (from (ppos s) s') =
    Some (Z.of_nat (length items), map object_repr items) /\
  (ppos s = Z.of_nat (length (content s)) ->
   content s' =
     content s ++ unsigned_repr (Z.of_nat (length items)) ++ concat (map object_repr items)).
Proof.
  intros HW.
  assert (EW : W = EdgeWriter) by (destruct HW as [<- | [<- | []]]; reflexivity).
  subst W. intros Hwf HN s' Hgood.
  destruct (edge_lifetime_good s h items Hwf Hgood) as (_ & _ & Hc & _ & _).
  fold s' in Hc.
  assert (Hn : to_unsigned (Z.of_nat (length items)) = Z.of_nat (length items)).
  { unfold to_unsigned, UNSIGNED_WIDTH. apply Z.mod_small. lia. }
  unfold segment_bytes in Hc. rewrite Hn in Hc.
  set (prefix := unsigned_repr (Z.of_nat (length items))) in *.
  set (records := concat (map object_repr items)) in *.
  assert (Hfrom : from (ppos s) s' =
            prefix ++ records ++
            drop (Z.to_nat (ppos s) + length (prefix ++ records)) (content s)).
  { unfold from. rewrite Hc, drop_overwrite, <- app_assoc. reflexivity. }
  assert (Hlp : length prefix = 4%nat) by apply length_unsigned_repr.
  assert (Hlr : length records = (sizeof T * length items)%nat)
    by apply length_concat_repr.
  split; [| split; [| split]].
  - rewrite Hfrom, app_assoc. apply take_app_length'.
    rewrite length_app, Hlp, Hlr. reflexivity.
  - rewrite Hfrom, take_app_length' by (symmetry; exact Hlp).
    unfold prefix. rewrite le_combine_unsigned_repr. exact Hn.
  - rewrite Hfrom.
    pose proof (read_segment_concat (sizeof T) (Z.of_nat (length items))
                  (map object_repr items)
                  (drop (Z.to_nat (ppos s) + length (prefix ++ records)) (content s)))
      as Hread.
    rewrite length_map in Hread. apply Hread; [| exact Hn].
    apply List.Forall_forall. intros bs Hin. apply in_map_iff in Hin.
    destruct Hin as (x & <- & _). apply object_repr_length.
  - intros Hend. rewrite Hc, Hend, Nat2Z.id, overwrite_at_end. reflexivity.
Qed.

(** C2. A counted-record writer on which [Write] is never called, on a
    stream that reports no failure once the writer is gone: the stream
    took two stores, the placeholder of the constructor and then the
    patch of the finalizer, which puts the count 0 into the placeholder;
    the four bytes at the start of the segment hold the count 0; the
    segment is four bytes long (the put position ends four bytes after
    the start of the segment); and on a stream that stood at its end
    those four bytes are all that was added. *)
Theorem empty_segment W (s : ostream) (h : Header) :
  In W counted_record_writers ->
  stream_wf s ->
  let s' := lifetime W s h (@nil T) in
  failed s' = false ->
  trace s' =
    Stored (ppos s) (unsigned_repr 0) :: Stored (ppos s) (unsigned_repr 0) :: trace s /\
  take 4 (from (ppos s) s') = unsigned_repr 0 /\
  le_combine (take 4 (from (ppos s) s')) = 0 /\
  ppos s' - ppos s = 4 /\
  (ppos s = Z.of_nat (length (content s)) ->
   content s' = content s ++ unsigned_repr 0 /\
   length (content s') = (length (content s) + 4)%nat).
Proof.
  intros HW.
  assert (EW : W = EdgeWriter) by (destruct HW as [<- | [<- | []]]; reflexivity).
  subst W. intros Hwf s' Hgood.
  destruct (edge_lifetime_good s h [] Hwf Hgood) as (Hf & Hsk & Hc & Hp & Hl).
  fold s' in Hc, Hp, Hl.
  unfold segment_bytes in Hc. cbn [length map concat] in Hc, Hp.
  rewrite app_nil_r in Hc.
  change (to_unsigned (Z.of_nat 0)) with 0 in Hc.
  assert (Hhead : take 4 (from (ppos s) s') = unsigned_repr 0).
  { unfold from. rewrite Hc, drop_overwrite.
    apply take_app_length'. rewrite length_unsigned_repr. reflexivity. }
  assert (Htrace : trace s' =
            Stored (ppos s) (unsigned_repr 0) :: Stored (ppos s) (unsigned_repr 0) :: trace s).
  { destruct Hwf as [[Hp0 Hpmax] _]. unfold s'.
    rewrite lifetime_unfold, dtor_stream. cbn [write_all fold_left].
    rewrite ctor_edge, (tellp_good s Hf Hsk).
    cbn [OSRMWriter.stream_ OSRMWriter.segment_start_ OSRMWriter.header_offset_
         OSRMWriter.count_ Finalize_ EdgeWriter fst snd].
    rewrite write_within by (rewrite ?length_unsigned_repr; auto; lia). cbn [snd].
    assert (Hstart : to_streamoff (to_size_t (to_size_t (ppos s) + 0)) = ppos s).
    { unfold STREAMOFF_MAX in *.
      rewrite Z.add_0_r, !(to_size_t_small (ppos s)) by lia.
      apply to_streamoff_small. unfold STREAMOFF_MAX. lia. }
    rewrite finalize_within; rewrite ?Hstart; cbn [store failed seekable ppos limit trace];
      rewrite ?length_unsigned_repr; auto; lia. }
  split; [exact Htrace | split; [exact Hhead | split; [| split]]].
  - rewrite Hhead. reflexivity.
  - rewrite Hp. lia.
  - intros Hend. rewrite Hc, Hend, Nat2Z.id, overwrite_at_end.
    split; [reflexivity |]. rewrite length_app, length_unsigned_repr. reflexivity.
Qed.

End CountedRecordsClaims.

(** With 2^32 records the four bytes at the start of the segment hold
    0. *)
Lemma prefix_wraps_at (n : nat) (x : uint32) :
  Z.of_nat n = 2 ^ 32 ->
  let items := replicate n x in
  let s' := lifetime EdgeWriter fresh (U32 0) items in
  Z.of_nat (length items) = 2 ^ 32 /\
  failed s' = false /\
  le_combine (take 4 (from (ppos fresh) s')) = 0 /\
  le_combine (take 4 (from (ppos fresh) s')) <> Z.of_nat (length items).
Proof.
  intros Hn items s'.
  assert (Hlen : Z.of_nat (length items) = 2 ^ 32).
  { unfold items. rewrite length_replicate. exact Hn. }
  assert (Hwf : stream_wf fresh).
  { unfold stream_wf, fresh, STREAMOFF_MAX. cbn [ppos limit]. lia. }
  assert (Hgood : failed s' = false).
  { unfold s'. apply edge_lifetime_within; try reflexivity; [exact Hwf |].
    change (sizeof uint32) with 4%nat. change (ppos fresh) with 0.
    change (limit fresh) with (2 ^ 63 - 1). lia. }
  destruct (edge_lifetime_good fresh (U32 0) items Hwf Hgood) as (_ & _ & Hc & _ & _).
  fold s' in Hc.
  assert (Hhead : le_combine (take 4 (from (ppos fresh) s')) = 0).
  { unfold from. rewrite Hc, drop_overwrite. unfold segment_bytes.
    rewrite <- app_assoc, take_app_length' by (rewrite length_unsigned_repr; reflexivity).
    rewrite le_combine_unsigned_repr, Hlen. reflexivity. }
  split; [exact Hlen | split; [exact Hgood | split; [exact Hhead |]]].
  rewrite Hhead, Hlen. lia.
Qed.

(** Against C1 as it was stated: 2^32 four-byte records written through
    an EdgeWriter on a fresh stream, with no failure; the four bytes at
    the start of the segment hold 0, not the number of records. *)
Lemma counted_records_prefix_wraps :
  let items := replicate (Z.to_nat (2 ^ 32)) (U32 7) in
  let s' := lifetime EdgeWriter fresh (U32 0) items in
  Z.of_nat (length items) = 2 ^ 32 /\
  failed s' = false /\
  le_combine (take 4 (from (ppos fresh) s')) = 0 /\
  le_combine (take 4 (from (ppos fresh) s')) <> Z.of_nat (length items).
Proof. apply (prefix_wraps_at (Z.to_nat (2 ^ 32)) (U32 7)). apply Z2Nat.id. lia. Qed.

(** ** The header-only writer *)

Section HeaderOnly.

Context {Header T : Type} `{Trivial Header} `{Trivial T}.

Lemma ctor_header (s : ostream) (h : Header) :
  OSRMWriter.ctor HeaderWriter s h =
  OSRMWriter.mk (snd (write (object_repr h) (snd (tellp s))))
                (to_size_t (fst (tellp s))) (Z.of_nat (sizeof Header)) 0 [HeaderCall].
Proof. unfold OSRMWriter.ctor. destruct (tellp s) as [pos s1]. reflexivity. Qed.

(** The silent item policy leaves the stream alone. *)
Lemma run_block_silent P (b : block T) (w : OSRMWriter.t) :
  Type_ P = NoTypeWritePolicy ->
  OSRMWriter.stream_ (snd (run_block P b w)) = OSRMWriter.stream_ w.
Proof.
  intros HT.
  apply (run_block_preserves P
           (fun w' => OSRMWriter.stream_ w' = OSRMWriter.stream_ w)); [| reflexivity].
  intros item w' Hw'. unfold OSRMWriter.Write. rewrite HT. exact Hw'.
Qed.

Lemma header_scope (s : ostream) (h : Header) (b : block T) :
  out (scope HeaderWriter s h b) = snd (write (object_repr h) (snd (tellp s))).
Proof.
  rewrite scope_unfold. cbn [out]. rewrite dtor_stream. cbn [Finalize_ HeaderWriter].
  change (snd (finalize_Write NoFinalizeWritePolicy ?a ?b ?c ?s)) with s.
  rewrite run_block_silent by reflexivity. rewrite ctor_header. reflexivity.
Qed.

(** C5. A header-only writer (HeaderWriter) constructed with a header
    of [sizeof(Header)] bytes and destroyed, whatever the caller did in
    between, on a stream that reports no failure afterwards: the one
    store made on the stream is that of the header's object
    representation, [sizeof(Header)] bytes, at the position the stream
    had; the put position has advanced by that many bytes; the stream
    holds these bytes there; and on a stream that stood at its end they
    are all that was added, with nothing before and nothing after
    them. *)
Theorem header_only_segment (s : ostream) (h : Header) (b : block T) :
  stream_wf s ->
  let s' := out (scope HeaderWriter s h b) in
  failed s' = false ->
  stores (trace s') = (ppos s, object_repr h) :: stores (trace s) /\
  length (object_repr h) = sizeof Header /\
  ppos s' = ppos s + Z.of_nat (sizeof Header) /\
  take (sizeof Header) (from (ppos s) s') = object_repr h /\
  (ppos s = Z.of_nat (length (content s)) ->
   content s' = content s ++ object_repr h /\
   length (content s') = (length (content s) + sizeof Header)%nat).
Proof.
  intros [[Hp0 _] _] s' Hgood. unfold s' in *. rewrite header_scope in *.
  destruct (write_good _ _ Hgood) as (Hf1 & _ & ->).
  destruct (tellp_frame s) as (Hc1 & Hp1 & _ & _ & _).
  assert (Htr : stores (trace (snd (tellp s))) = stores (trace s)).
  { unfold tellp. destruct (negb (failed s) && seekable s); reflexivity. }
  unfold from. cbn [store trace ppos content].
  rewrite Hp1, Hc1, object_repr_length.
  split; [| split; [| split; [| split]]].
  - cbn [stores flat_map app]. fold (stores (trace (snd (tellp s)))).
    rewrite Htr. reflexivity.
  - reflexivity.
  - reflexivity.
  - rewrite <- (object_repr_length h) at 1. apply take_drop_overwrite.
  - intros Hend. rewrite Hend, Nat2Z.id, overwrite_at_end.
    split; [reflexivity |]. rewrite length_app, object_repr_length. reflexivity.
Qed.

End HeaderOnly.

(** ** Properties of the stream kept along a lifetime *)

Lemma respects_ret Inv {A} (a : A) : respects Inv (mret a : io A).
Proof. intros st Hst. exact Hst. Qed.

Lemma respects_bind Inv {A B} (m : io A) (k : A -> io B) :
  respects Inv m -> (forall a, respects Inv (k a)) -> respects Inv (m ≫= k).
Proof.
  intros Hm Hk st Hst. unfold mbind, io_bind.
  specialize (Hm st Hst). destruct (m st) as [a st1]. apply Hk. exact Hm.
Qed.

Section Kept.

Context (Inv : ostream -> Prop).
Hypothesis Inv_write : forall bs, respects Inv (write bs).
Hypothesis Inv_seekp : forall p, respects Inv (seekp p).
Hypothesis Inv_tellp : respects Inv tellp.

Lemma header_respects HP {Header} `{Trivial Header} (h : Header) (ss c : Z) :
  In HP header_policies -> respects Inv (header_Write HP h ss c).
Proof.
  intros [<- | [<- | [<- | []]]]; cbn [header_Write NoHeaderWritePolicy
    TrivialHeaderWritePolicy LengthPrefixHeaderWritePolicy].
  - apply respects_ret.
  - apply respects_bind; [apply Inv_write | intros; apply respects_ret].
  - apply respects_bind; [apply Inv_write | intros; apply respects_ret].
Qed.

Lemma type_respects TP {T} `{Trivial T} (item : T) (ss ho c : Z) :
  In TP type_policies -> respects Inv (type_Write TP item ss ho c).
Proof.
  intros [<- | [<- | []]]; cbn [type_Write NoTypeWritePolicy TrivialTypeWritePolicy].
  - apply respects_ret.
  - apply respects_bind; [apply Inv_write | intros; apply respects_ret].
Qed.

Lemma finalize_respects FP (ss ho c : Z) :
  In FP finalize_policies -> respects Inv (finalize_Write FP ss ho c).
Proof.
  intros [<- | [<- | []]];
    cbn [finalize_Write NoFinalizeWritePolicy LengthPrefixFinalizeWritePolicy].
  - apply respects_ret.
  - apply respects_bind; [apply Inv_tellp | intros here].
    apply respects_bind; [apply Inv_seekp | intros _].
    apply respects_bind; [apply Inv_write | intros _].
    apply respects_bind; [apply Inv_seekp | intros _].
    apply respects_ret.
Qed.

Context (P : policies) (HP : of_this_file P).
Context {Header T : Type} `{Trivial Header} `{Trivial T}.

Lemma ctor_respects (s : ostream) (h : Header) :
  Inv s -> Inv (OSRMWriter.stream_ (OSRMWriter.ctor P s h)).
Proof.
  intros Hs. unfold OSRMWriter.ctor.
  pose proof (Inv_tellp s Hs) as H1. destruct (tellp s) as [pos s1]. cbn [snd] in H1.
  pose proof (header_respects (Header_ P) h (to_size_t pos) 0 (proj1 HP) s1 H1) as H2.
  destruct (header_Write (Header_ P) h (to_size_t pos) 0 s1) as [off s2]. exact H2.
Qed.

Lemma Write_respects (item : T) (w : OSRMWriter.t) :
  Inv (OSRMWriter.stream_ w) -> Inv (OSRMWriter.stream_ (snd (OSRMWriter.Write P item w))).
Proof.
  intros Hw. unfold OSRMWriter.Write.
  pose proof (type_respects (Type_ P) item (OSRMWriter.segment_start_ w)
                (OSRMWriter.header_offset_ w) (OSRMWriter.count_ w)
                (proj1 (proj2 HP)) _ Hw) as H1.
  destruct (type_Write (Type_ P) item _ _ _ _) as [n s1]. exact H1.
Qed.

Lemma dtor_respects (w : OSRMWriter.t) :
  Inv (OSRMWriter.stream_ w) -> Inv (fst (OSRMWriter.dtor P w)).
Proof.
  intros Hw. rewrite dtor_stream.
  apply finalize_respects; [exact (proj2 (proj2 HP)) | exact Hw].
Qed.

Lemma block_respects (b : block T) (w : OSRMWriter.t) :
  Inv (OSRMWriter.stream_ w) -> Inv (OSRMWriter.stream_ (snd (run_block P b w))).
Proof.
  apply (run_block_preserves P (fun w => Inv (OSRMWriter.stream_ w))).
  intros item w'. apply Write_respects.
Qed.

Lemma scope_respects (s : ostream) (h : Header) (b : block T) :
  Inv s -> Inv (out (scope P s h b)).
Proof.
  intros Hs. rewrite scope_unfold. cbn [out].
  apply dtor_respects, block_respects, ctor_respects, Hs.
Qed.

End Kept.

(** C3. For a writer built with any header and item policy and either
    finalizer of this file, whatever the caller did in the block and
    however many items were written: when the destructor has run, the
    put position of the stream is the one it had when the block was
    left, just before the finalizer began.  This holds when the stream
    reports no failure after the finalizer, and also when the stream had
    failed before it (the finalizer then moves nothing). *)
Theorem finalize_restores_position P {Header T} `{Trivial Header} `{Trivial T}
    (s : ostream) (h : Header) (b : block T) :
  In (Finalize_ P) finalize_policies ->
  let before := OSRMWriter.stream_ (snd (run_block P b (OSRMWriter.ctor P s h))) in
  let after := out (scope P s h b) in
  failed before = true \/ failed after = false ->
  ppos after = ppos before.
Proof.
  intros HFP before after. unfold after. rewrite scope_unfold. cbn [out].
  fold before. intros [Hfailed | Hgood].
  - rewrite dtor_stream.
    apply (finalize_respects
             (fun st => failed st = true /\ ppos st = ppos before)).
    + intros bs st. apply write_stuck.
    + intros q st. apply seekp_stuck.
    + intros st. apply tellp_stuck.
    + exact HFP.
    + split; [exact Hfailed | reflexivity].
  - apply dtor_restores_position; assumption.
Qed.

(** ** Failures of the stream *)

Lemma flagged_refl s0 : flagged s0 s0.
Proof. exists []. split; [reflexivity |]. intros [[] | []]. Qed.

Lemma flagged_write s0 bs : respects (flagged s0) (write bs).
Proof.
  intros st (new & Htr & Hfl). unfold write. cbn [snd].
  destruct (failed st) eqn:Hf.
  - exists (WriteFailed :: new). cbn [note trace failed]. rewrite Htr.
    split; [reflexivity | intros _; exact Hf].
  - destruct (ppos st + Z.of_nat (length bs) <=? limit st).
    + exists (Stored (ppos st) bs :: new). cbn [store trace failed]. rewrite Htr.
      split; [reflexivity |].
      intros [[E | Hin] | [E | Hin]]; try discriminate E;
        rewrite Hf; apply Hfl; tauto.
    + destruct (store_fitting_cases bs st) as [-> | [_ ->]].
      * exists (WriteFailed :: new). cbn [note set_failed trace failed]. rewrite Htr.
        split; reflexivity.
      * exists (WriteFailed :: Stored (ppos st) (fitting bs st) :: new).
        cbn [note set_failed store trace failed]. rewrite Htr.
        split; reflexivity.
Qed.

Lemma flagged_seekp s0 p : respects (flagged s0) (seekp p).
Proof.
  intros st (new & Htr & Hfl). unfold seekp. cbn [snd].
  destruct (failed st) eqn:Hf.
  - exists (SeekFailed :: new). cbn [note trace failed]. rewrite Htr.
    split; [reflexivity | intros _; exact Hf].
  - destruct (seekable st && (0 <=? p)).
    + exists new. cbn [set_ppos trace failed]. split; [exact Htr |].
      intros Hin. rewrite Hf. apply Hfl, Hin.
    + exists (SeekFailed :: new). cbn [note set_failed trace failed]. rewrite Htr.
      split; reflexivity.
Qed.

Lemma flagged_tellp s0 : respects (flagged s0) tellp.
Proof.
  intros st (new & Htr & Hfl). unfold tellp.
  destruct (negb (failed st) && seekable st); cbn [snd].
  - exists new. split; assumption.
  - exists (TellFailed :: new). cbn [note trace failed]. rewrite Htr.
    split; [reflexivity |].
    intros [[E | Hin] | [E | Hin]]; try discriminate E; apply Hfl; tauto.
Qed.

Lemma sticky_tellp : respects (fun st => failed st = true) tellp.
Proof. intros st Hst. rewrite tellp_state. exact Hst. Qed.

(** C8, as amended. For a writer built from the policies of this file,
    whatever the caller does in the block: the writer reports no stream
    failure itself.  A write or a seek that failed during the header
    write, an item write or the finalizer has set the failure state of
    the borrowed stream, and that state is still set when the destructor
    has run, so the caller finds it on the stream; a stream that had
    failed before stays failed.  [Write] adds one to the count whether
    or not the bytes were stored: after [k] calls [Count()] is [k]
    (modulo 2^64) on every stream. *)
Theorem stream_failures_stay_on_the_stream P {Header T} `{Trivial Header} `{Trivial T}
    (s : ostream) (h : Header) (b : block T) :
  of_this_file P ->
  let s' := out (scope P s h b) in
  (exists new : list event,
     trace s' = new ++ trace s /\
     (In WriteFailed new \/ In SeekFailed new -> failed s' = true)) /\
  (failed s = true -> failed s' = true) /\
  (Type_ P = TrivialTypeWritePolicy ->
   forall items : list T,
     fst (OSRMWriter.Count (write_all P items (OSRMWriter.ctor P s h))) =
     to_size_t (Z.of_nat (length items))).
Proof.
  intros HP s'. split; [| split].
  - apply (scope_respects (flagged s)); auto using flagged_write, flagged_seekp,
      flagged_tellp, flagged_refl.
  - apply (scope_respects (fun st => failed st = true)); auto using sticky_tellp.
    + intros bs st. apply write_sticky.
    + intros p st. apply seekp_sticky.
  - intros HT items. unfold OSRMWriter.Count. cbn [fst].
    rewrite count_write_all_trivial, count_ctor by (rewrite ?count_ctor; auto).
    reflexivity.
Qed.

(** Against C8 as it was stated.  First, a HeaderWriter on a stream
    that cannot report its position: the [tellp] of the constructor
    fails; yet the stream reports no failure afterwards, and what the
    caller gets back is what it gets on a seekable stream, where nothing
    failed.  Second, an EdgeWriter on a sink that is full after the
    placeholder: the write of the record fails; [Write] returns nothing,
    [Count()] says 1 as it does when the record was stored, and the block
    ends the same way; the failure shows on the stream alone. *)
Lemma stream_failure_is_not_reported :
  let on_pipe := scope HeaderWriter pipe H16 (End (T := uint32)) in
  let on_file := scope HeaderWriter fresh H16 (End (T := uint32)) in
  let full := OSRMWriter.ctor EdgeWriter (bounded 4) (U32 0) in
  let roomy := OSRMWriter.ctor EdgeWriter fresh (U32 0) in
  (fst (tellp pipe) = -1 /\
   In TellFailed (trace (out on_pipe)) /\
   ~ In TellFailed (trace (out on_file)) /\
   failed (out on_pipe) = false /\
   content (out on_pipe) = content (out on_file) /\
   ppos (out on_pipe) = ppos (out on_file) /\
   how on_pipe = how on_file /\
   calls on_pipe = calls on_file) /\
  (In WriteFailed (trace (OSRMWriter.stream_ (snd (OSRMWriter.Write EdgeWriter R0 full)))) /\
   content (OSRMWriter.stream_ (snd (OSRMWriter.Write EdgeWriter R0 full))) = unsigned_repr 0 /\
   fst (OSRMWriter.Write EdgeWriter R0 full) = fst (OSRMWriter.Write EdgeWriter R0 roomy) /\
   fst (OSRMWriter.Count (snd (OSRMWriter.Write EdgeWriter R0 full))) = 1 /\
   fst (OSRMWriter.Count (snd (OSRMWriter.Write EdgeWriter R0 roomy))) = 1 /\
   how (scope EdgeWriter (bounded 4) (U32 0) (CallWrite R0 End)) =
   how (scope EdgeWriter fresh (U32 0) (CallWrite R0 End))).
Proof.
  cbv zeta. split.
  - repeat split; try reflexivity.
    + vm_compute. right. left. reflexivity.
    + vm_compute. intros [E | []]. discriminate E.
  - repeat split; try reflexivity.
    vm_compute. left. reflexivity.
Qed.

(** ** Where the bytes land *)

Lemma extends_refl ss a : extends ss a a.
Proof. exists []. split; [reflexivity | constructor]. Qed.

Lemma extends_trans ss a b c : extends ss a b -> extends ss b c -> extends ss a c.
Proof.
  intros (n1 & H1 & F1) (n2 & H2 & F2). exists (n2 ++ n1).
  rewrite H2, H1, app_assoc. split; [reflexivity |].
  apply Forall_app. split; assumption.
Qed.

Lemma extends_write ss bs st :
  (failed st = false -> ss <= ppos st) -> extends ss st (snd (write bs st)).
Proof.
  intros Hpos. unfold write. cbn [snd]. destruct (failed st) eqn:Hf.
  - exists [WriteFailed]. split; [reflexivity | repeat constructor].
  - destruct (ppos st + Z.of_nat (length bs) <=? limit st).
    + exists [Stored (ppos st) bs]. split; [reflexivity |].
      constructor; [exact (Hpos eq_refl) | constructor].
    + destruct (store_fitting_cases bs st) as [-> | [_ ->]].
      * exists [WriteFailed]. split; [reflexivity | repeat constructor].
      * exists [WriteFailed; Stored (ppos st) (fitting bs st)].
        split; [reflexivity |].
        constructor; [exact I |]. constructor; [exact (Hpos eq_refl) | constructor].
Qed.

Lemma extends_seekp ss p st : extends ss st (snd (seekp p st)).
Proof.
  unfold seekp. cbn [snd]. destruct (failed st).
  - exists [SeekFailed]. split; [reflexivity | repeat constructor].
  - destruct (seekable st && (0 <=? p)).
    + exists []. split; [reflexivity | constructor].
    + exists [SeekFailed]. split; [reflexivity | repeat constructor].
Qed.

Lemma extends_tellp ss st : extends ss st (snd (tellp st)).
Proof.
  unfold tellp. destruct (negb (failed st) && seekable st); cbn [snd].
  - apply extends_refl.
  - exists [TellFailed]. split; [reflexivity | repeat constructor].
Qed.

Lemma behind_write ss s0 bs : respects (behind ss s0) (write bs).
Proof.
  intros st [Hext Hpos]. split.
  - apply (extends_trans ss s0 st); [exact Hext |].
    apply extends_write. intros Hf. apply Hpos, Hf.
  - intros Hgood. destruct (write_good bs st Hgood) as (Hf & _ & ->).
    destruct (Hpos Hf) as [Hle Hmax]. cbn [store ppos]. lia.
Qed.

Lemma behind_tellp ss s0 : respects (behind ss s0) tellp.
Proof.
  intros st [Hext Hpos]. split.
  - apply (extends_trans ss s0 st); [exact Hext | apply extends_tellp].
  - destruct (tellp_frame st) as (_ & -> & -> & _). exact Hpos.
Qed.

Lemma target_not_before (ss ho : Z) :
  0 <= ss <= STREAMOFF_MAX -> 0 <= ho <= STREAMOFF_MAX ->
  0 <= to_streamoff (to_size_t (ss + ho)) ->
  ss <= to_streamoff (to_size_t (ss + ho)).
Proof.
  unfold STREAMOFF_MAX. intros Hss Hho.
  rewrite to_size_t_small by lia.
  destruct (Z_le_gt_dec (ss + ho) STREAMOFF_MAX) as [Hle | Hgt].
  - rewrite to_streamoff_small by lia. lia.
  - pose proof (to_streamoff_large (ss + ho)) as Hneg.
    unfold STREAMOFF_MAX in *. lia.
Qed.

(** The length-prefix finalizer stores nothing before the segment. *)
Lemma extends_finalize (ss ho c : Z) (s0 st : ostream) :
  0 <= ss -> 0 <= ho <= STREAMOFF_MAX ->
  behind ss s0 st ->
  extends ss s0 (snd (finalize_Write LengthPrefixFinalizeWritePolicy ss ho c st)).
Proof.
  intros Hss Hho [Hext Hpos].
  cbn [finalize_Write LengthPrefixFinalizeWritePolicy].
  unfold mbind, io_bind, mret, io_ret.
  set (target := to_streamoff (to_size_t (ss + ho))).
  pose proof (extends_tellp ss st) as E1.
  destruct (tellp_frame st) as (_ & _ & Hf1 & _).
  destruct (tellp st) as [here st1]. cbn [snd] in E1, Hf1.
  pose proof (extends_seekp ss target st1) as E2.
  pose proof (seekp_good target st1) as G2.
  destruct (seekp target st1) as [u2 st2]. cbn [snd] in E2, G2.
  assert (E3 : extends ss st2 (snd (write (unsigned_repr (to_unsigned c)) st2))).
  { apply extends_write. intros Hf2.
    destruct (G2 Hf2) as (Hf1' & _ & Htarget & ->). cbn [set_ppos ppos].
    rewrite Hf1 in Hf1'. destruct (Hpos Hf1') as [_ Hmax].
    apply target_not_before; [lia | exact Hho | exact Htarget]. }
  destruct (write (unsigned_repr (to_unsigned c)) st2) as [u3 st3]. cbn [snd] in E3.
  pose proof (extends_seekp ss here st3) as E4.
  destruct (seekp here st3) as [u4 st4]. cbn [snd] in *.
  eauto using extends_trans.
Qed.

Section MemberFacts.

Context (P : policies) {Header T : Type} `{Trivial Header} `{Trivial T}.

Lemma ctor_segment_start (s : ostream) (h : Header) :
  OSRMWriter.segment_start_ (OSRMWriter.ctor P s h) = to_size_t (fst (tellp s)).
Proof.
  unfold OSRMWriter.ctor. destruct (tellp s) as [pos s1].
  destruct (header_Write (Header_ P) h _ _ s1). reflexivity.
Qed.

Lemma ctor_header_offset (s : ostream) (h : Header) :
  In (Header_ P) header_policies ->
  0 <= OSRMWriter.header_offset_ (OSRMWriter.ctor P s h) <= STREAMOFF_MAX.
Proof.
  intros HP. unfold OSRMWriter.ctor. destruct (tellp s) as [pos s1].
  destruct HP as [E | [E | [E | []]]]; rewrite <- E;
    cbn [header_Write NoHeaderWritePolicy TrivialHeaderWritePolicy
           LengthPrefixHeaderWritePolicy]; unfold mbind, io_bind, mret, io_ret;
    try (destruct (write _ s1) as [u s2]); cbn [OSRMWriter.header_offset_].
  - unfold STREAMOFF_MAX. lia.
  - pose proof (sizeof_bound (T := Header)). lia.
  - unfold STREAMOFF_MAX. lia.
Qed.

Lemma ctor_header_offset_reserved (s : ostream) (h : Header) :
  Header_ P = LengthPrefixHeaderWritePolicy ->
  OSRMWriter.header_offset_ (OSRMWriter.ctor P s h) = 0.
Proof.
  intros E. unfold OSRMWriter.ctor. destruct (tellp s) as [pos s1]. rewrite E.
  cbn [header_Write LengthPrefixHeaderWritePolicy]. unfold mbind, io_bind, mret, io_ret.
  destruct (write _ s1) as [u s2]. reflexivity.
Qed.

Lemma run_block_members (b : block T) (w : OSRMWriter.t) :
  OSRMWriter.segment_start_ (snd (run_block P b w)) = OSRMWriter.segment_start_ w /\
  OSRMWriter.header_offset_ (snd (run_block P b w)) = OSRMWriter.header_offset_ w.
Proof.
  apply (run_block_preserves P
           (fun w' => OSRMWriter.segment_start_ w' = OSRMWriter.segment_start_ w /\
                      OSRMWriter.header_offset_ w' = OSRMWriter.header_offset_ w));
    [| split; reflexivity].
  intros item w' [H1 H2]. destruct (Write_members P item w') as [-> ->].
  split; assumption.
Qed.

End MemberFacts.

(** C6. For a writer built from the policies of this file on a seekable
    stream, whatever the caller does in the block: every store made on
    the stream during the lifetime of the writer (by the header write,
    by the item writes, by the patch of the finalizer) begins at an
    offset that is not before [segment_start_]; [segment_start_] is the
    position the stream had at construction; and the length-prefix
    header reports header offset 0, so that the patch goes to
    [segment_start_] itself. *)
Theorem never_writes_before_segment_start P {Header T} `{Trivial Header} `{Trivial T}
    (s : ostream) (h : Header) (b : block T) :
  of_this_file P -> stream_wf s -> seekable s = true ->
  let w := OSRMWriter.ctor P s h in
  (exists new : list event,
     trace (out (scope P s h b)) = new ++ trace s /\
     Forall (not_before (OSRMWriter.segment_start_ w)) new) /\
  (failed s = false -> OSRMWriter.segment_start_ w = ppos s) /\
  (Header_ P = LengthPrefixHeaderWritePolicy -> OSRMWriter.header_offset_ w = 0).
Proof.
  intros HP [[Hp0 Hpmax] Hlmax] Hsk w.
  assert (Hstart : failed s = false -> OSRMWriter.segment_start_ w = ppos s).
  { intros Hf. unfold w. rewrite ctor_segment_start, (tellp_good s Hf Hsk).
    apply to_size_t_small. unfold STREAMOFF_MAX in *. cbn [fst]. lia. }
  assert (Hss0 : 0 <= OSRMWriter.segment_start_ w).
  { unfold w. rewrite ctor_segment_start. unfold to_size_t, SIZE_WIDTH.
    apply Z.mod_pos_bound. lia. }
  split; [| split; [exact Hstart | apply ctor_header_offset_reserved]].
  set (ss := OSRMWriter.segment_start_ w) in *.
  assert (Hinit : behind ss s s).
  { split; [apply extends_refl |]. intros Hf. rewrite (Hstart Hf). lia. }
  assert (Hblock : behind ss s (OSRMWriter.stream_ (snd (run_block P b w)))).
  { apply (block_respects (behind ss s)); [apply behind_write | exact HP |].
    apply (ctor_respects (behind ss s));
      [apply behind_write | apply behind_tellp | exact HP | exact Hinit]. }
  rewrite scope_unfold. cbn [out]. rewrite dtor_stream. fold w.
  destruct (run_block_members P b w) as [E1 E2]. rewrite E1, E2. fold ss.
  destruct HP as (HH & _ & [E | [E | []]]); rewrite <- E.
  - exact (proj1 Hblock).
  - apply extends_finalize; [exact Hss0 | | exact Hblock].
    apply ctor_header_offset, HH.
Qed.

(** ** Two runs side by side *)

Section InStep.

Context (a0 b0 : ostream).

Lemma in_step_ret {A} (x : A) : in_step a0 b0 (mret x : io A).
Proof. intros a b Hab. split; [reflexivity | exact Hab]. Qed.

Lemma in_step_bind {A B} (m : io A) (k : A -> io B) :
  in_step a0 b0 m -> (forall x, in_step a0 b0 (k x)) -> in_step a0 b0 (m ≫= k).
Proof.
  intros Hm Hk a b Hab. unfold mbind, io_bind.
  destruct (Hm a b Hab) as [Hv Hs].
  destruct (m a) as [x a1], (m b) as [y b1]. cbn [fst snd] in Hv, Hs. subst y.
  apply Hk. exact Hs.
Qed.

(** The events [new'] come on top of the common events. *)
Ltac alike_with new' :=
  unfold alike;
  cbn [note set_failed set_ppos store ppos failed seekable limit trace content];
  split; [| split; [| split; [| split; [| split]]]];
  [ try reflexivity; try assumption; try congruence ..
  | exists new'; split; cbn [app]; congruence
  | try assumption ].

Lemma in_step_write bs : in_step a0 b0 (write bs).
Proof.
  intros a b (Hp & Hf & Hsk & Hl & (new & Ha & Hb) & Hc).
  split; [reflexivity |]. unfold write. cbn [snd]. rewrite <- Hf, <- Hp, <- Hl.
  destruct (failed a) eqn:Hfa.
  - alike_with (WriteFailed :: new).
  - destruct (ppos a + Z.of_nat (length bs) <=? limit a).
    + alike_with (Stored (ppos a) bs :: new).
      intros H0. rewrite (Hc H0), Hp. reflexivity.
    + assert (Hfit : fitting bs b = fitting bs a)
        by (unfold fitting; rewrite Hp, Hl; reflexivity).
      unfold store_fitting. rewrite Hfit.
      destruct (fitting bs a) as [| x part].
      * alike_with (WriteFailed :: new).
      * alike_with (WriteFailed :: Stored (ppos a) (x :: part) :: new).
        intros H0. rewrite (Hc H0), Hp. reflexivity.
Qed.

Lemma in_step_seekp p : in_step a0 b0 (seekp p).
Proof.
  intros a b (Hp & Hf & Hsk & Hl & (new & Ha & Hb) & Hc).
  split; [reflexivity |]. unfold seekp. cbn [snd]. rewrite <- Hf, <- Hsk.
  destruct (failed a) eqn:Hfa.
  - alike_with (SeekFailed :: new).
  - destruct (seekable a && (0 <=? p)).
    + alike_with new.
    + alike_with (SeekFailed :: new).
Qed.

Lemma in_step_tellp : in_step a0 b0 tellp.
Proof.
  intros a b (Hp & Hf & Hsk & Hl & (new & Ha & Hb) & Hc).
  unfold tellp. rewrite <- Hf, <- Hsk.
  destruct (negb (failed a) && seekable a); cbn [fst snd].
  - split; [exact Hp |]. alike_with new.
  - split; [reflexivity |]. alike_with (TellFailed :: new).
Qed.

Lemma in_step_header HP {Header} `{Trivial Header} (h : Header) (ss c : Z) :
  In HP header_policies -> in_step a0 b0 (header_Write HP h ss c).
Proof.
  intros [<- | [<- | [<- | []]]]; cbn [header_Write NoHeaderWritePolicy
    TrivialHeaderWritePolicy LengthPrefixHeaderWritePolicy].
  - apply in_step_ret.
  - apply in_step_bind; [apply in_step_write | intros; apply in_step_ret].
  - apply in_step_bind; [apply in_step_write | intros; apply in_step_ret].
Qed.

Lemma in_step_type TP {T} `{Trivial T} (item : T) (ss ho c : Z) :
  In TP type_policies -> in_step a0 b0 (type_Write TP item ss ho c).
Proof.
  intros [<- | [<- | []]]; cbn [type_Write NoTypeWritePolicy TrivialTypeWritePolicy].
  - apply in_step_ret.
  - apply in_step_bind; [apply in_step_write | intros; apply in_step_ret].
Qed.

Lemma in_step_finalize FP (ss ho c : Z) :
  In FP finalize_policies -> in_step a0 b0 (finalize_Write FP ss ho c).
Proof.
  intros [<- | [<- | []]];
    cbn [finalize_Write NoFinalizeWritePolicy LengthPrefixFinalizeWritePolicy].
  - apply in_step_ret.
  - apply in_step_bind; [apply in_step_tellp | intros here].
    apply in_step_bind; [apply in_step_seekp | intros _].
    apply in_step_bind; [apply in_step_write | intros _].
    apply in_step_bind; [apply in_step_seekp | intros _].
    apply in_step_ret.
Qed.

Ltac twins_now :=
  unfold twins;
  cbn [OSRMWriter.segment_start_ OSRMWriter.header_offset_ OSRMWriter.count_
       OSRMWriter.history_ OSRMWriter.stream_];
  split; [| split; [| split; [| split]]];
  first [reflexivity | assumption | congruence].

Context (P : policies) (HP : of_this_file P).
Context {Header T : Type} `{Trivial Header} `{Trivial T}.

Lemma twins_ctor (h : Header) :
  alike a0 b0 a0 b0 -> twins a0 b0 (OSRMWriter.ctor P a0 h) (OSRMWriter.ctor P b0 h).
Proof.
  intros Hab. unfold OSRMWriter.ctor.
  destruct (in_step_tellp a0 b0 Hab) as [Hv Hs].
  destruct (tellp a0) as [p1 a1], (tellp b0) as [p2 b1]. cbn [fst snd] in Hv, Hs. subst p2.
  destruct (in_step_header (Header_ P) h (to_size_t p1) 0 (proj1 HP) a1 b1 Hs) as [Hv' Hs'].
  destruct (header_Write (Header_ P) h (to_size_t p1) 0 a1) as [o1 a2],
           (header_Write (Header_ P) h (to_size_t p1) 0 b1) as [o2 b2].
  cbn [fst snd] in Hv', Hs'. subst o2. twins_now.
Qed.

Lemma twins_Write (item : T) (w1 w2 : OSRMWriter.t) :
  twins a0 b0 w1 w2 ->
  twins a0 b0 (snd (OSRMWriter.Write P item w1)) (snd (OSRMWriter.Write P item w2)).
Proof.
  intros (Hss & Hho & Hc & Hh & Hs). unfold OSRMWriter.Write.
  rewrite <- Hss, <- Hho, <- Hc, <- Hh.
  destruct (in_step_type (Type_ P) item (OSRMWriter.segment_start_ w1)
              (OSRMWriter.header_offset_ w1) (OSRMWriter.count_ w1)
              (proj1 (proj2 HP)) _ _ Hs) as [Hv' Hs'].
  destruct (type_Write (Type_ P) item _ _ _ (OSRMWriter.stream_ w1)) as [n1 a2],
           (type_Write (Type_ P) item _ _ _ (OSRMWriter.stream_ w2)) as [n2 b2].
  cbn [fst snd] in Hv', Hs'. subst n2. twins_now.
Qed.

Lemma twins_run_block (b : block T) : forall w1 w2,
  twins a0 b0 w1 w2 ->
  fst (run_block P b w1) = fst (run_block P b w2) /\
  twins a0 b0 (snd (run_block P b w1)) (snd (run_block P b w2)).
Proof.
  induction b as [| | item rest IH | rest IH]; intros w1 w2 Hw; cbn [run_block].
  - split; [reflexivity | exact Hw].
  - split; [reflexivity | exact Hw].
  - pose proof (twins_Write item w1 w2 Hw) as Hw'.
    destruct (OSRMWriter.Write P item w1) as [u1 w1'],
             (OSRMWriter.Write P item w2) as [u2 w2'].
    apply IH. exact Hw'.
  - unfold OSRMWriter.Count. destruct Hw as (Hss & Hho & Hc & Hrest).
    rewrite <- Hc. apply IH. unfold twins. tauto.
Qed.

Lemma twins_dtor (w1 w2 : OSRMWriter.t) :
  twins a0 b0 w1 w2 ->
  alike a0 b0 (fst (OSRMWriter.dtor P w1)) (fst (OSRMWriter.dtor P w2)) /\
  snd (OSRMWriter.dtor P w1) = snd (OSRMWriter.dtor P w2).
Proof.
  intros (Hss & Hho & Hc & Hh & Hs). rewrite !dtor_stream, !dtor_history.
  rewrite <- Hss, <- Hho, <- Hc, <- Hh. split; [| reflexivity].
  apply in_step_finalize; [exact (proj2 (proj2 HP)) | exact Hs].
Qed.

End InStep.

(** X6. Two runs of the same writer type, built from the policies of
    this file, with the same header and the same block of the caller, on
    two streams that stand at the same position in the same condition
    (failure flag, seekability, limit of the sink) and may hold different
    bytes: the same events happen on both streams, failures included;
    both streams end at the same position in the same state; and
    [Count()], the way out of the block and the policy calls are the
    same. *)
Theorem runs_in_step P {Header T} `{Trivial Header} `{Trivial T}
    (s1 s2 : ostream) (h : Header) (b : block T) :
  of_this_file P ->
  ppos s1 = ppos s2 -> failed s1 = failed s2 ->
  seekable s1 = seekable s2 -> limit s1 = limit s2 ->
  let o1 := scope P s1 h b in
  let o2 := scope P s2 h b in
  (exists new : list event,
     trace (out o1) = new ++ trace s1 /\ trace (out o2) = new ++ trace s2) /\
  ppos (out o1) = ppos (out o2) /\
  failed (out o1) = failed (out o2) /\
  OSRMWriter.count_ (snd (run_block P b (OSRMWriter.ctor P s1 h))) =
  OSRMWriter.count_ (snd (run_block P b (OSRMWriter.ctor P s2 h))) /\
  how o1 = how o2 /\
  calls o1 = calls o2 /\
  (content s1 = content s2 -> content (out o1) = content (out o2)).
Proof.
  intros HP Hp Hf Hsk Hl o1 o2.
  assert (Hinit : alike s1 s2 s1 s2).
  { unfold alike. repeat (split; [assumption |]).
    split; [exists []; split; reflexivity | tauto]. }
  pose proof (twins_ctor s1 s2 P HP h Hinit) as Hctor.
  destruct (twins_run_block s1 s2 P HP b _ _ Hctor) as [Hhow Hblock].
  destruct (twins_dtor s1 s2 P HP _ _ Hblock) as [Hout Hcalls].
  unfold o1, o2. rewrite !scope_unfold. cbn [out how calls].
  destruct Hout as (Hp' & Hf' & _ & _ & Hnew & Hc').
  destruct Hblock as (_ & _ & Hcount & _).
  repeat (split; [assumption |]). exact Hc'.
Qed.

(** ** Two runs on two streams *)

Section Paired.

Context (R : ostream -> ostream -> Prop).
Hypothesis R_write : forall bs a b, R a b -> R (snd (write bs a)) (snd (write bs b)).
Hypothesis R_tellp : forall a b, R a b -> R (snd (tellp a)) (snd (tellp b)).

(** The value a header or an item policy of this file returns does not
    depend on the stream. *)
Lemma paired_header HP {Header} `{Trivial Header} (h : Header) (ss1 ss2 c : Z) a b :
  In HP header_policies ->
  R a b ->
  fst (header_Write HP h ss1 c a) = fst (header_Write HP h ss2 c b) /\
  R (snd (header_Write HP h ss1 c a)) (snd (header_Write HP h ss2 c b)).
Proof.
  intros [<- | [<- | [<- | []]]] Hab;
    cbn [header_Write NoHeaderWritePolicy TrivialHeaderWritePolicy
           LengthPrefixHeaderWritePolicy];
    unfold mbind, io_bind, mret, io_ret; cbn [write fst snd].
  - split; [reflexivity | exact Hab].
  - split; [reflexivity | apply (R_write _ a b Hab)].
  - split; [reflexivity | apply (R_write _ a b Hab)].
Qed.

Lemma paired_type TP {T} `{Trivial T} (item : T) (ss1 ss2 ho c : Z) a b :
  In TP type_policies ->
  R a b ->
  fst (type_Write TP item ss1 ho c a) = fst (type_Write TP item ss2 ho c b) /\
  R (snd (type_Write TP item ss1 ho c a)) (snd (type_Write TP item ss2 ho c b)).
Proof.
  intros [<- | [<- | []]] Hab;
    cbn [type_Write NoTypeWritePolicy TrivialTypeWritePolicy];
    unfold mbind, io_bind, mret, io_ret; cbn [write fst snd].
  - split; [reflexivity | exact Hab].
  - split; [reflexivity | apply (R_write _ a b Hab)].
Qed.

Ltac paired_now :=
  unfold paired;
  cbn [OSRMWriter.header_offset_ OSRMWriter.count_ OSRMWriter.history_
       OSRMWriter.stream_];
  split; [| split; [| split]];
  first [reflexivity | assumption | congruence].

Context (P : policies) (HP : of_this_file P).
Context {Header T : Type} `{Trivial Header} `{Trivial T}.

Lemma paired_ctor (a0 b0 : ostream) (h : Header) :
  R a0 b0 -> paired R (OSRMWriter.ctor P a0 h) (OSRMWriter.ctor P b0 h).
Proof.
  intros Hab. unfold OSRMWriter.ctor.
  pose proof (R_tellp a0 b0 Hab) as Hs.
  destruct (tellp a0) as [p1 a1], (tellp b0) as [p2 b1]. cbn [snd] in Hs.
  destruct (paired_header (Header_ P) h (to_size_t p1) (to_size_t p2) 0 a1 b1
              (proj1 HP) Hs) as [Hv' Hs'].
  destruct (header_Write (Header_ P) h (to_size_t p1) 0 a1) as [o1 a2],
           (header_Write (Header_ P) h (to_size_t p2) 0 b1) as [o2 b2].
  cbn [fst snd] in Hv', Hs'. subst o2. paired_now.
Qed.

Lemma paired_Write (item : T) (w1 w2 : OSRMWriter.t) :
  paired R w1 w2 ->
  paired R (snd (OSRMWriter.Write P item w1)) (snd (OSRMWriter.Write P item w2)).
Proof.
  intros (Hho & Hc & Hh & Hs). unfold OSRMWriter.Write.
  rewrite <- Hho, <- Hc, <- Hh.
  destruct (paired_type (Type_ P) item (OSRMWriter.segment_start_ w1)
              (OSRMWriter.segment_start_ w2)
              (OSRMWriter.header_offset_ w1) (OSRMWriter.count_ w1) _ _
              (proj1 (proj2 HP)) Hs) as [Hv' Hs'].
  destruct (type_Write (Type_ P) item _ _ _ (OSRMWriter.stream_ w1)) as [n1 a2],
           (type_Write (Type_ P) item _ _ _ (OSRMWriter.stream_ w2)) as [n2 b2].
  cbn [fst snd] in Hv', Hs'. subst n2. paired_now.
Qed.

Lemma paired_run_block (b : block T) : forall w1 w2,
  paired R w1 w2 ->
  fst (run_block P b w1) = fst (run_block P b w2) /\
  paired R (snd (run_block P b w1)) (snd (run_block P b w2)).
Proof.
  induction b as [| | item rest IH | rest IH]; intros w1 w2 Hw; cbn [run_block].
  - split; [reflexivity | exact Hw].
  - split; [reflexivity | exact Hw].
  - pose proof (paired_Write item w1 w2 Hw) as Hw'.
    destruct (OSRMWriter.Write P item w1) as [u1 w1'],
             (OSRMWriter.Write P item w2) as [u2 w2'].
    apply IH. exact Hw'.
  - unfold OSRMWriter.Count. destruct Hw as (Hho & Hc & Hrest).
    rewrite <- Hc. apply IH. unfold paired. tauto.
Qed.

End Paired.

Section Agree.

Context (a0 b0 : ostream).

Lemma agree_write bs a b :
  agree a0 b0 a b -> agree a0 b0 (snd (write bs a)) (snd (write bs b)).
Proof.
  intros Hab Ha Hb.
  destruct (write_good bs a Ha) as (Hfa & _ & ->).
  destruct (write_good bs b Hb) as (Hfb & _ & ->).
  destruct (Hab Hfa Hfb) as (Hp & (n1 & n2 & H1 & H2 & Hst) & Hc).
  cbn [store ppos trace content]. split; [| split].
  - rewrite Hp. reflexivity.
  - exists (Stored (ppos a) bs :: n1), (Stored (ppos b) bs :: n2).
    rewrite H1, H2. split; [reflexivity | split; [reflexivity |]].
    cbn [stores flat_map app]. fold (stores n1). fold (stores n2).
    rewrite Hp, Hst. reflexivity.
  - intros Hsame. rewrite (Hc Hsame), Hp. reflexivity.
Qed.

Lemma agree_tellp a b :
  agree a0 b0 a b -> agree a0 b0 (snd (tellp a)) (snd (tellp b)).
Proof.
  intros Hab Ha Hb. rewrite tellp_state in Ha, Hb.
  destruct (Hab Ha Hb) as (Hp & (n1 & n2 & H1 & H2 & Hst) & Hc).
  destruct (tellp_frame a) as (Hca & Hpa & _).
  destruct (tellp_frame b) as (Hcb & Hpb & _).
  rewrite Hca, Hcb, Hpa, Hpb. split; [exact Hp | split; [| exact Hc]].
  unfold tellp.
  destruct (negb (failed a) && seekable a), (negb (failed b) && seekable b);
    cbn [snd note trace]; rewrite ?H1, ?H2.
  - exists n1, n2. auto.
  - exists n1, (TellFailed :: n2). auto.
  - exists (TellFailed :: n1), n2. auto.
  - exists (TellFailed :: n1), (TellFailed :: n2). auto.
Qed.

End Agree.

(** What a run keeps of the stream it started on. *)
Lemma run_keeps_seekable P {Header T} `{Trivial Header} `{Trivial T}
    (s : ostream) (h : Header) (b : block T) :
  of_this_file P ->
  seekable (OSRMWriter.stream_ (snd (run_block P b (OSRMWriter.ctor P s h)))) =
  seekable s.
Proof.
  intros HP.
  apply (block_respects (fun st => seekable st = seekable s)).
  - intros bs st Hst. unfold write. cbn [snd].
    destruct (failed st); [exact Hst |].
    destruct (_ <=? _); [exact Hst |]. cbn [note set_failed seekable].
    destruct (store_fitting_frame bs st) as (_ & -> & _). exact Hst.
  - exact HP.
  - apply (ctor_respects (fun st => seekable st = seekable s)).
    + intros bs st Hst. unfold write. cbn [snd].
      destruct (failed st); [exact Hst |].
      destruct (_ <=? _); [exact Hst |]. cbn [note set_failed seekable].
      destruct (store_fitting_frame bs st) as (_ & -> & _). exact Hst.
    + intros st Hst. destruct (tellp_frame st) as (_ & _ & _ & -> & _). exact Hst.
    + exact HP.
    + reflexivity.
Qed.

Lemma run_keeps_failure P {Header T} `{Trivial Header} `{Trivial T}
    (s : ostream) (h : Header) (b : block T) :
  of_this_file P ->
  failed (OSRMWriter.stream_ (snd (run_block P b (OSRMWriter.ctor P s h)))) = false ->
  failed s = false.
Proof.
  intros HP Hgood. destruct (failed s) eqn:Hf; [| reflexivity].
  assert (Hbad : failed (OSRMWriter.stream_
                           (snd (run_block P b (OSRMWriter.ctor P s h)))) = true).
  { apply (block_respects (fun st => failed st = true)).
    - intros bs st. apply write_sticky.
    - exact HP.
    - apply (ctor_respects (fun st => failed st = true)).
      + intros bs st. apply write_sticky.
      + apply sticky_tellp.
      + exact HP.
      + exact Hf. }
  congruence.
Qed.

(** C10. Two runs of the same writer type, built from the policies of
    this file, with the same header and the same block of the caller
    (the same items passed to [Write] in the same order), on two
    streams.  Whatever the streams: [Count()] is the same when the block
    is left, the block is left the same way, and the same policy calls
    were made.  When the streams started at the same position and
    neither reports a failure once the writer is gone: the same bytes
    were stored at the same offsets in the same order, both streams end
    at the same position, and streams that held the same bytes hold the
    same bytes afterwards. *)
Theorem writer_is_deterministic P {Header T} `{Trivial Header} `{Trivial T}
    (s1 s2 : ostream) (h : Header) (b : block T) :
  of_this_file P ->
  let w1 := snd (run_block P b (OSRMWriter.ctor P s1 h)) in
  let w2 := snd (run_block P b (OSRMWriter.ctor P s2 h)) in
  let o1 := scope P s1 h b in
  let o2 := scope P s2 h b in
  (fst (OSRMWriter.Count w1) = fst (OSRMWriter.Count w2) /\
   how o1 = how o2 /\ calls o1 = calls o2) /\
  (ppos s1 = ppos s2 -> failed (out o1) = false -> failed (out o2) = false ->
   ppos (out o1) = ppos (out o2) /\
   (exists n1 n2 : list event,
      trace (out o1) = n1 ++ trace s1 /\ trace (out o2) = n2 ++ trace s2 /\
      stores n1 = stores n2) /\
   (content s1 = content s2 -> content (out o1) = content (out o2))).
Proof.
  intros HP w1 w2 o1 o2. split.
  - (* the books of the writer never depend on the stream *)
    destruct (paired_run_block (fun _ _ => True) (fun _ _ _ _ => I) P HP b
                (OSRMWriter.ctor P s1 h) (OSRMWriter.ctor P s2 h))
      as (Hhow & _ & Hc & Hh & _).
    { apply paired_ctor; auto. }
    fold w1 w2 in Hc, Hh.
    unfold o1, o2. rewrite !scope_unfold. cbn [how calls].
    rewrite !dtor_history. fold w1 w2. unfold OSRMWriter.Count. cbn [fst].
    split; [exact Hc | split; [exact Hhow |]]. rewrite Hh. reflexivity.
  - intros Hp.
    assert (Hinit : agree s1 s2 s1 s2).
    { intros _ _. split; [exact Hp | split; [| tauto]].
      exists [], []. repeat split. }
    destruct (paired_run_block (agree s1 s2) (agree_write s1 s2) P HP b
                (OSRMWriter.ctor P s1 h) (OSRMWriter.ctor P s2 h))
      as (_ & Hho & Hc & _ & Hagree).
    { apply paired_ctor; [apply agree_write | apply agree_tellp | exact HP | exact Hinit]. }
    fold w1 w2 in Hho, Hc, Hagree.
    unfold o1, o2. rewrite !scope_unfold. cbn [out]. fold w1 w2.
    rewrite !dtor_stream.
    destruct HP as (HH & HT & [E | [E | []]]); rewrite <- E.
    + (* no finalizer *)
      intros Hg1 Hg2. exact (Hagree Hg1 Hg2).
    + (* the length-prefix finalizer *)
      intros Hg1 Hg2.
      apply finalize_good in Hg1. apply finalize_good in Hg2.
      destruct Hg1 as (Hf1 & Hsk1 & _ & _ & _ & ->).
      destruct Hg2 as (Hf2 & Hsk2 & _ & _ & _ & ->).
      destruct (Hagree Hf1 Hf2) as (Hpe & (n1 & n2 & H1 & H2 & Hst) & Hce).
      assert (HP' : of_this_file P).
      { unfold of_this_file. rewrite <- E. cbn. tauto. }
      assert (Hss : OSRMWriter.segment_start_ w1 = OSRMWriter.segment_start_ w2).
      { unfold w1, w2.
        destruct (run_block_members P b (OSRMWriter.ctor P s1 h)) as [-> _].
        destruct (run_block_members P b (OSRMWriter.ctor P s2 h)) as [-> _].
        rewrite !ctor_segment_start.
        rewrite (tellp_good s1), (tellp_good s2).
        - cbn [fst]. rewrite Hp. reflexivity.
        - apply (run_keeps_failure P s2 h b HP' Hf2).
        - rewrite <- (run_keeps_seekable P s2 h b HP'). exact Hsk2.
        - apply (run_keeps_failure P s1 h b HP' Hf1).
        - rewrite <- (run_keeps_seekable P s1 h b HP'). exact Hsk1. }
      cbn [ppos trace content]. rewrite <- Hss, <- Hho, <- Hc.
      set (target := to_streamoff (to_size_t
             (OSRMWriter.segment_start_ w1 + OSRMWriter.header_offset_ w1))).
      set (patch := unsigned_repr (to_unsigned (OSRMWriter.count_ w1))).
      split; [exact Hpe | split].
      * exists (Stored target patch :: n1), (Stored target patch :: n2).
        rewrite H1, H2. split; [reflexivity | split; [reflexivity |]].
        cbn [stores flat_map app]. fold (stores n1). fold (stores n2).
        rewrite Hst. reflexivity.
      * intros Hsame. rewrite (Hce Hsame). reflexivity.
Qed.

(** ** Further properties of the writer *)

(** X1. [segment_start_] and [header_offset_] keep, for the lifetime of
    a writer, the values the constructor gave them: no [Write] and no
    [Count] changes them, whatever the policies. *)
Theorem members_are_constant P {Header T} `{Trivial Header} `{Trivial T}
    (s : ostream) (h : Header) (b : block T) :
  let w0 := OSRMWriter.ctor P s h in
  let w := snd (run_block P b w0) in
  OSRMWriter.segment_start_ w = OSRMWriter.segment_start_ w0 /\
  OSRMWriter.header_offset_ w = OSRMWriter.header_offset_ w0.
Proof. intros w0 w. apply run_block_members. Qed.

(** X2. On a header-only writer [Write] does nothing: whatever the
    caller writes, the stream stays as the constructor left it and
    [Count()] stays 0. *)
Theorem header_writer_writes_no_items {Header T} `{Trivial Header} `{Trivial T}
    (s : ostream) (h : Header) (b : block T) :
  let w0 := OSRMWriter.ctor HeaderWriter s h in
  let w := snd (run_block HeaderWriter b w0) in
  OSRMWriter.stream_ w = OSRMWriter.stream_ w0 /\
  fst (OSRMWriter.Count w) = 0.
Proof.
  intros w0 w. split.
  - apply run_block_silent. reflexivity.
  - unfold OSRMWriter.Count. cbn [fst].
    apply (run_block_preserves HeaderWriter (fun w' => OSRMWriter.count_ w' = 0)).
    + intros item w' Hw'. unfold OSRMWriter.Write. cbn. rewrite Hw'. reflexivity.
    + apply count_ctor.
Qed.

(** X3. The segment of a counted-record writer is [4 + N * sizeof(T)]
    bytes long: on a stream that reports no failure once the writer is
    gone, the put position ends that many bytes after the start of the
    segment, within the limit of the sink. *)
Theorem counted_segment_length W {Header T} `{Trivial Header} `{Trivial T}
    (s : ostream) (h : Header) (items : list T) :
  In W counted_record_writers ->
  stream_wf s ->
  let s' := lifetime W s h items in
  failed s' = false ->
  ppos s' - ppos s = 4 + Z.of_nat (sizeof T) * Z.of_nat (length items) /\
  ppos s' <= limit s.
Proof.
  intros HW.
  assert (EW : W = EdgeWriter) by (destruct HW as [<- | [<- | []]]; reflexivity).
  subst W. intros Hwf s' Hgood.
  destruct (edge_lifetime_good s h items Hwf Hgood) as (_ & _ & _ & Hp & Hl).
  fold s' in Hp, Hl. split; [| exact Hl]. rewrite Hp. lia.
Qed.

(** X4. On a stream that had failed before the writer was constructed
    nothing is stored and nothing moves, for every writer built from the
    policies of this file and whatever the caller does. *)
Theorem failed_stream_is_left_alone P {Header T} `{Trivial Header} `{Trivial T}
    (s : ostream) (h : Header) (b : block T) :
  of_this_file P ->
  failed s = true ->
  let s' := out (scope P s h b) in
  failed s' = true /\ content s' = content s /\ ppos s' = ppos s /\
  stores (trace s') = stores (trace s).
Proof.
  intros HP Hf s'.
  apply (scope_respects
           (fun st => failed st = true /\ content st = content s /\
                      ppos st = ppos s /\ stores (trace st) = stores (trace s))).
  - intros bs st (Hfs & Hc & Hp & Ht). unfold write. cbn [snd]. rewrite Hfs.
    repeat split; assumption.
  - intros q st (Hfs & Hc & Hp & Ht). unfold seekp. cbn [snd]. rewrite Hfs.
    repeat split; assumption.
  - intros st (Hfs & Hc & Hp & Ht). unfold tellp. rewrite Hfs.
    repeat split; assumption.
  - exact HP.
  - repeat split. exact Hf.
Qed.

(** X5. For every number [N] of records, on a stream that reports no
    failure once the counted-record writer is gone: the segment holds
    the four bytes of [N] modulo 2^32 followed by the raw bytes of the
    [N] records; the records are intact whatever [N] is. *)
Theorem counted_records_prefix_modulo W {Header T} `{Trivial Header} `{Trivial T}
    (s : ostream) (h : Header) (items : list T) :
  In W counted_record_writers ->
  stream_wf s ->
  let s' := lifetime W s h items in
  failed s' = false ->
  take (4 + sizeof T * length items) (from (ppos s) s') =
    unsigned_repr (Z.of_nat (length items) mod 2 ^ 32) ++ concat (map object_repr items) /\
  le_combine (take 4 (from (ppos s) s')) = Z.of_nat (length items) mod 2 ^ 32.
Proof.
  intros HW.
  assert (EW : W = EdgeWriter) by (destruct HW as [<- | [<- | []]]; reflexivity).
  subst W. intros Hwf s' Hgood.
  destruct (edge_lifetime_good s h items Hwf Hgood) as (_ & _ & Hc & _ & _).
  fold s' in Hc. unfold segment_bytes in Hc.
  change (to_unsigned (Z.of_nat (length items)))
    with (Z.of_nat (length items) mod 2 ^ 32) in Hc.
  set (prefix := unsigned_repr (Z.of_nat (length items) mod 2 ^ 32)) in *.
  set (records := concat (map object_repr items)) in *.
  assert (Hfrom : from (ppos s) s' =
            prefix ++ records ++
            drop (Z.to_nat (ppos s) + length (prefix ++ records)) (content s)).
  { unfold from. rewrite Hc, drop_overwrite, <- app_assoc. reflexivity. }
  assert (Hlp : length prefix = 4%nat) by apply length_unsigned_repr.
  assert (Hlr : length records = (sizeof T * length items)%nat)
    by apply length_concat_repr.
  split.
  - rewrite Hfrom, app_assoc. apply take_app_length'.
    rewrite length_app, Hlp, Hlr. reflexivity.
  - rewrite Hfrom, take_app_length' by (symmetry; exact Hlp).
    unfold prefix. rewrite le_combine_unsigned_repr.
    unfold to_unsigned, UNSIGNED_WIDTH. apply Z.mod_mod. lia.
Qed.

(** ** Blocks and the items they write *)

Section Passed.

Context (P : policies) {Header T : Type} `{Trivial Header} `{Trivial T}.

(** However a block is left, the writer is then the one that has
    written, in order, the items the block passed to [Write]. *)
Lemma run_block_passed (b : block T) : forall w : OSRMWriter.t,
  snd (run_block P b w) = write_all P (passed P b w) w.
Proof.
  induction b as [| | item rest IH | rest IH]; intros w; cbn [run_block passed].
  - reflexivity.
  - reflexivity.
  - destruct (OSRMWriter.Write P item w) as [u w'] eqn:E.
    rewrite IH. unfold write_all. cbn [fold_left snd]. rewrite E. reflexivity.
  - apply IH.
Qed.

Lemma scope_out_passed (s : ostream) (h : Header) (b : block T) :
  out (scope P s h b) = lifetime P s h (passed P b (OSRMWriter.ctor P s h)).
Proof.
  rewrite scope_unfold, lifetime_unfold. cbn [out].
  rewrite run_block_passed. reflexivity.
Qed.

End Passed.

Section CountedBlocks.

Context {Header T : Type} `{Trivial Header} `{Trivial T}.

Lemma length_segment_bytes (items : list T) :
  length (segment_bytes items) = (4 + sizeof T * length items)%nat.
Proof.
  unfold segment_bytes. rewrite length_app, length_unsigned_repr, length_concat_repr.
  reflexivity.
Qed.

(** What the stream holds from the start of a counted segment on. *)
Lemma edge_segment_read (s : ostream) (h : Header) (items : list T) :
  stream_wf s ->
  failed (lifetime EdgeWriter s h items) = false ->
  from (ppos s) (lifetime EdgeWriter s h items) =
  segment_bytes items ++
  drop (Z.to_nat (ppos s) + length (segment_bytes items)) (content s).
Proof.
  intros Hwf Hgood.
  destruct (edge_lifetime_good s h items Hwf Hgood) as (_ & _ & Hc & _ & _).
  unfold from. rewrite Hc. apply drop_overwrite.
Qed.

Lemma segment_bytes_small (items : list T) :
  Z.of_nat (length items) < 2 ^ 32 ->
  segment_bytes items =
  unsigned_repr (Z.of_nat (length items)) ++ concat (map object_repr items).
Proof.
  intros HN. unfold segment_bytes, to_unsigned, UNSIGNED_WIDTH.
  rewrite Z.mod_small by lia. reflexivity.
Qed.

Lemma read_segment_bytes (items : list T) (rest : list byte) :
  Z.of_nat (length items) < 2 ^ 32 ->
  read_segment (sizeof T) (segment_bytes items ++ rest) =
  Some (Z.of_nat (length items), map object_repr items).
Proof.
  intros HN. rewrite segment_bytes_small by exact HN. rewrite <- app_assoc.
  pose proof (read_segment_concat (sizeof T) (Z.of_nat (length items))
                (map object_repr items) rest) as Hread.
  rewrite length_map in Hread. apply Hread.
  - apply List.Forall_forall. intros bs Hin. apply in_map_iff in Hin.
    destruct Hin as (x & <- & _). apply object_repr_length.
  - unfold to_unsigned, UNSIGNED_WIDTH. apply Z.mod_small. lia.
Qed.

(** X7. A counted-record writer and any block of the caller, left at its
    end or by an exception, on a stream that reports no failure once the
    writer is gone: with [items] the items the block passed to [Write],
    fewer than 2^32, [Count()] at the exit is their number, the segment
    read back gives that count and those records, and the put position
    ends behind the last record. *)
Theorem segment_after_any_block W (s : ostream) (h : Header) (b : block T) :
  In W counted_record_writers ->
  stream_wf s ->
  let w := snd (run_block W b (OSRMWriter.ctor W s h)) in
  let items := passed W b (OSRMWriter.ctor W s h) in
  let s' := out (scope W s h b) in
  Z.of_nat (length items) < 2 ^ 32 ->
  failed s' = false ->
  fst (OSRMWriter.Count w) = Z.of_nat (length items) /\
  read_segment (sizeof T) (from (ppos s) s') =
    Some (fst (OSRMWriter.Count w), map object_repr items) /\
  ppos s' = ppos s + 4 + Z.of_nat (sizeof T) * Z.of_nat (length items).
Proof.
  intros HW.
  assert (EW : W = EdgeWriter) by (destruct HW as [<- | [<- | []]]; reflexivity).
  subst W. intros Hwf w items s' HN. unfold s', w.
  rewrite scope_out_passed, run_block_passed. fold items. intros Hgood.
  assert (Hcount : fst (OSRMWriter.Count
                          (write_all EdgeWriter items (OSRMWriter.ctor EdgeWriter s h))) =
                   Z.of_nat (length items)).
  { unfold OSRMWriter.Count. cbn [fst].
    rewrite count_write_all_trivial, count_ctor by (rewrite ?count_ctor; reflexivity).
    apply to_size_t_small. lia. }
  split; [exact Hcount | split].
  - rewrite Hcount, (edge_segment_read s h items Hwf Hgood).
    apply read_segment_bytes. exact HN.
  - destruct (edge_lifetime_good s h items Hwf Hgood) as (_ & _ & _ & Hp & _).
    rewrite Hp. lia.
Qed.

End CountedBlocks.

(** ** One segment after another *)

Lemma scope_sticky P {Header T} `{Trivial Header} `{Trivial T}
    (s : ostream) (h : Header) (b : block T) :
  of_this_file P -> failed (out (scope P s h b)) = false -> failed s = false.
Proof.
  intros HP Hgood. destruct (failed s) eqn:Hf; [| reflexivity].
  assert (Hbad : failed (out (scope P s h b)) = true).
  { apply (scope_respects (fun st => failed st = true)).
    - intros bs st. apply write_sticky.
    - intros p st. apply seekp_sticky.
    - apply sticky_tellp.
    - exact HP.
    - exact Hf. }
  congruence.
Qed.

Lemma scope_limit P {Header T} `{Trivial Header} `{Trivial T}
    (s : ostream) (h : Header) (b : block T) :
  of_this_file P -> limit (out (scope P s h b)) = limit s.
Proof.
  intros HP. apply (scope_respects (fun st => limit st = limit s)).
  - intros bs st Hst. unfold write. cbn [snd].
    destruct (failed st); [exact Hst |]. destruct (_ <=? _); [exact Hst |].
    cbn [note set_failed limit].
    destruct (store_fitting_frame bs st) as (_ & _ & ->). exact Hst.
  - intros p st Hst. unfold seekp. cbn [snd].
    destruct (failed st); [exact Hst |]. destruct (_ && _); exact Hst.
  - intros st Hst. destruct (tellp_frame st) as (_ & _ & _ & _ & ->). exact Hst.
  - exact HP.
  - reflexivity.
Qed.

Lemma EdgeWriter_of_this_file : of_this_file EdgeWriter.
Proof. unfold of_this_file. cbn. tauto. Qed.

Lemma HeaderWriter_of_this_file : of_this_file HeaderWriter.
Proof. unfold of_this_file. cbn. tauto. Qed.

Section Appending.

Context {Header T : Type} `{Trivial Header} `{Trivial T}.

(** A counted segment written at the end of a stream is appended to
    it. *)
Lemma edge_appends (s : ostream) (h : Header) (items : list T) :
  stream_wf s -> ppos s = Z.of_nat (length (content s)) ->
  failed (lifetime EdgeWriter s h items) = false ->
  content (lifetime EdgeWriter s h items) = content s ++ segment_bytes items /\
  ppos (lifetime EdgeWriter s h items) =
    Z.of_nat (length (content (lifetime EdgeWriter s h items))) /\
  stream_wf (lifetime EdgeWriter s h items).
Proof.
  intros Hwf Hend Hgood.
  destruct (edge_lifetime_good s h items Hwf Hgood) as (_ & _ & Hc & Hp & Hl).
  assert (Hc' : content (lifetime EdgeWriter s h items) = content s ++ segment_bytes items).
  { rewrite Hc, Hend, Nat2Z.id. apply overwrite_at_end. }
  destruct Hwf as [[Hp0 Hpmax] Hlmax].
  split; [exact Hc' | split].
  - rewrite Hc', Hp, length_app, length_segment_bytes, Hend. lia.
  - unfold stream_wf. unfold lifetime at 3. rewrite scope_limit by apply EdgeWriter_of_this_file.
    lia.
Qed.

(** So is a header. *)
Lemma header_appends (s : ostream) (h : Header) (b : block T) :
  stream_wf s -> ppos s = Z.of_nat (length (content s)) ->
  failed (out (scope HeaderWriter s h b)) = false ->
  content (out (scope HeaderWriter s h b)) = content s ++ object_repr h /\
  ppos (out (scope HeaderWriter s h b)) =
    Z.of_nat (length (content (out (scope HeaderWriter s h b)))) /\
  stream_wf (out (scope HeaderWriter s h b)).
Proof.
  intros [[Hp0 Hpmax] Hlmax] Hend. rewrite header_scope. intros Hgood.
  destruct (write_good _ _ Hgood) as (Hf1 & Hlim & ->).
  destruct (tellp_frame s) as (Hc1 & Hp1 & _ & _ & Hl1).
  unfold stream_wf. cbn [store content ppos limit].
  rewrite Hp1, Hc1, Hl1 in *. rewrite Hend, Nat2Z.id, overwrite_at_end.
  split; [reflexivity | split].
  - rewrite length_app. lia.
  - lia.
Qed.

End Appending.

(** X8. A header, then a counted segment of nodes, then a counted segment
    of edges, each through a writer of its own on the same stream, one
    lifetime after the other, starting at the end of the stream, with no
    failure reported at the end: the stream has grown by the header's
    bytes followed by the two segments and stands at its end; the
    header's bytes are where it started; and each segment, read back
    from where its writer started, gives its count and its records: the
    finalizer of a later writer does not touch an earlier segment. *)
Theorem segments_in_sequence {F H1 H2 N E : Type}
    `{Trivial F} `{Trivial H1} `{Trivial H2} `{Trivial N} `{Trivial E}
    (s : ostream) (fp : F) (h1 : H1) (nodes : list N) (h2 : H2) (edges : list E) :
  stream_wf s -> ppos s = Z.of_nat (length (content s)) ->
  let s1 := lifetime HeaderWriter s fp (@nil N) in
  let s2 := lifetime NodeWriter s1 h1 nodes in
  let s3 := lifetime EdgeWriter s2 h2 edges in
  failed s3 = false ->
  content s3 =
    content s ++ object_repr fp ++ segment_bytes nodes ++ segment_bytes edges /\
  ppos s3 = Z.of_nat (length (content s3)) /\
  take (sizeof F) (from (ppos s) s3) = object_repr fp /\
  (Z.of_nat (length nodes) < 2 ^ 32 ->
   read_segment (sizeof N) (from (ppos s1) s3) =
     Some (Z.of_nat (length nodes), map object_repr nodes)) /\
  (Z.of_nat (length edges) < 2 ^ 32 ->
   read_segment (sizeof E) (from (ppos s2) s3) =
     Some (Z.of_nat (length edges), map object_repr edges)).
Proof.
  intros Hwf Hend s1 s2 s3 Hg3.
  assert (Hg2 : failed s2 = false).
  { apply (scope_sticky EdgeWriter s2 h2 (writes edges) EdgeWriter_of_this_file Hg3). }
  assert (Hg1 : failed s1 = false).
  { apply (scope_sticky EdgeWriter s1 h1 (writes nodes) EdgeWriter_of_this_file Hg2). }
  destruct (header_appends s fp (writes (@nil N)) Hwf Hend Hg1) as (Hc1 & He1 & Hwf1).
  fold (lifetime HeaderWriter s fp (@nil N)) in Hc1, He1, Hwf1. fold s1 in Hc1, He1, Hwf1.
  destruct (edge_appends s1 h1 nodes Hwf1 He1 Hg2) as (Hc2 & He2 & Hwf2).
  change (lifetime EdgeWriter s1 h1 nodes) with s2 in Hc2, He2, Hwf2.
  destruct (edge_appends s2 h2 edges Hwf2 He2 Hg3) as (Hc3 & He3 & _).
  fold s3 in Hc3, He3.
  assert (Hall : content s3 =
            content s ++ object_repr fp ++ segment_bytes nodes ++ segment_bytes edges).
  { rewrite Hc3, Hc2, Hc1, <- !app_assoc. reflexivity. }
  split; [exact Hall | split; [exact He3 | split; [| split]]].
  - unfold from. rewrite Hall, Hend, Nat2Z.id, drop_app_length.
    apply take_app_length'. symmetry. apply object_repr_length.
  - intros HN. unfold from. rewrite He1, Nat2Z.id, Hall, Hc1.
    rewrite (app_assoc (content s)), drop_app_length.
    apply read_segment_bytes. exact HN.
  - intros HE. unfold from. rewrite He2, Nat2Z.id, Hc3, drop_app_length.
    rewrite <- (app_nil_r (segment_bytes edges)).
    apply read_segment_bytes. exact HE.
Qed.

(** ** A stream that fails on the way *)

Lemma frozen_write c p bs : respects (frozen c p) (write bs).
Proof.
  intros st (Hf & Hc & Hp). unfold write. cbn [snd]. rewrite Hf.
  repeat split; assumption.
Qed.

Lemma frozen_seekp c p q : respects (frozen c p) (seekp q).
Proof.
  intros st (Hf & Hc & Hp). unfold seekp. cbn [snd]. rewrite Hf.
  repeat split; assumption.
Qed.

Lemma frozen_tellp c p : respects (frozen c p) tellp.
Proof.
  intros st (Hf & Hc & Hp). unfold tellp. rewrite Hf.
  repeat split; assumption.
Qed.

Lemma frozen_put_all c p bss : forall st, frozen c p st -> frozen c p (put_all bss st).
Proof.
  unfold put_all. induction bss as [| bs bss IH]; intros st Hst; cbn [fold_left].
  - exact Hst.
  - apply IH, frozen_write, Hst.
Qed.

Lemma frozen_dtor P c p (w : OSRMWriter.t) :
  In (Finalize_ P) finalize_policies ->
  frozen c p (OSRMWriter.stream_ w) -> frozen c p (fst (OSRMWriter.dtor P w)).
Proof.
  intros HF Hw. rewrite dtor_stream.
  apply (finalize_respects (frozen c p)); auto using frozen_write, frozen_seekp, frozen_tellp.
Qed.

(** Writes on a good stream whose sink has no room for all of them:
    the sink takes the bytes that fit, the stream fails and stands at
    the limit. *)
Lemma put_all_overflow bss : forall (st : ostream) (p0 : nat) (a d0 : list byte),
  failed st = false -> ppos st <= limit st ->
  limit st < ppos st + Z.of_nat (length (concat bss)) ->
  content st = overwrite p0 a d0 ->
  ppos st = Z.of_nat (p0 + length a) ->
  frozen (overwrite p0 (a ++ take (Z.to_nat (limit st - ppos st)) (concat bss)) d0)
         (limit st) (put_all bss st).
Proof.
  induction bss as [| bs bss IH]; intros st p0 a d0 Hf Hle Hlt Hc Hp;
    cbn [concat] in *.
  - cbn [length] in Hlt. lia.
  - unfold put_all. cbn [fold_left]. fold (put_all bss (snd (write bs st))).
    rewrite length_app in Hlt.
    destruct (Z_le_gt_dec (ppos st + Z.of_nat (length bs)) (limit st)) as [Hfits | Hnot].
    + rewrite write_within by assumption. cbn [snd].
      replace (Z.to_nat (limit st - ppos st))
        with (length bs + Z.to_nat (limit st - ppos (store bs st)))%nat
        by (cbn [store ppos]; lia).
      rewrite take_app_add, app_assoc.
      apply (IH (store bs st) p0 (a ++ bs) d0).
      * exact Hf.
      * cbn [store ppos limit]. lia.
      * cbn [store ppos limit]. lia.
      * cbn [store content]. rewrite Hc, Hp, Nat2Z.id. apply overwrite_append.
      * cbn [store ppos]. rewrite Hp, length_app. lia.
    + apply frozen_put_all.
      unfold write. cbn [snd]. rewrite Hf.
      destruct (Z.leb_spec (ppos st + Z.of_nat (length bs)) (limit st)) as [Hfits | _];
        [lia |].
      rewrite take_app_le by lia.
      fold (fitting bs st). unfold frozen. cbn [note set_failed failed content ppos].
      split; [reflexivity |].
      destruct (store_fitting_cases bs st) as [E | [Hne E]].
      * rewrite E. unfold store_fitting in E.
        destruct (fitting bs st) as [| x part] eqn:Efit.
        -- rewrite app_nil_r. split; [exact Hc |].
           unfold fitting in Efit. apply (f_equal length) in Efit.
           rewrite length_take in Efit. cbn [length] in Efit. lia.
        -- apply (f_equal trace) in E. cbn [store trace] in E.
           apply (f_equal length) in E. cbn [length] in E. lia.
      * rewrite E. cbn [store content ppos]. split.
        -- rewrite Hc, Hp, Nat2Z.id. apply overwrite_append.
        -- unfold fitting. rewrite length_take. lia.
Qed.

Section FullSink.

Context {Header T : Type} `{Trivial Header} `{Trivial T}.

(** The stream a counted-record writer hands to its finalizer. *)
Lemma edge_stream_before_dtor (s : ostream) (h : Header) (items : list T) :
  OSRMWriter.stream_ (write_all EdgeWriter items (OSRMWriter.ctor EdgeWriter s h)) =
  put_all (map object_repr items) (snd (write (unsigned_repr 0) (snd (tellp s)))).
Proof.
  rewrite stream_write_all_trivial by reflexivity. rewrite ctor_edge. reflexivity.
Qed.

(** X9. A counted-record writer on a good stream whose sink has room for
    the placeholder but not for all the records written: the stream
    ends failed; of the segment as written, placeholder first, the sink
    holds the bytes that fit below its limit; the finalizer stores
    nothing on the failed stream, so the placeholder still reads 0 and
    the segment reads as empty, while [Count()] has counted every
    item. *)
Theorem full_sink_leaves_count_zero W (s : ostream) (h : Header) (items : list T) :
  In W counted_record_writers ->
  stream_wf s -> failed s = false ->
  ppos s + 4 <= limit s ->
  limit s < ppos s + 4 + Z.of_nat (sizeof T * length items) ->
  let s' := lifetime W s h items in
  failed s' = true /\
  content s' =
    overwrite (Z.to_nat (ppos s))
      (take (Z.to_nat (limit s - ppos s))
            (unsigned_repr 0 ++ concat (map object_repr items)))
      (content s) /\
  le_combine (take 4 (from (ppos s) s')) = 0 /\
  fst (OSRMWriter.Count (write_all W items (OSRMWriter.ctor W s h))) =
    to_size_t (Z.of_nat (length items)).
Proof.
  intros HW.
  assert (EW : W = EdgeWriter) by (destruct HW as [<- | [<- | []]]; reflexivity).
  subst W. intros [[Hp0 Hpmax] Hlmax] Hf Hroom Hfull s'.
  set (records := concat (map object_repr items)).
  assert (Hsplit : take (Z.to_nat (limit s - ppos s)) (unsigned_repr 0 ++ records) =
                   unsigned_repr 0 ++ take (Z.to_nat (limit s - (ppos s + 4))) records).
  { replace (Z.to_nat (limit s - ppos s))
      with (length (unsigned_repr 0) + Z.to_nat (limit s - (ppos s + 4)))%nat
      by (rewrite length_unsigned_repr; lia).
    apply take_app_add. }
  assert (Hfrozen : frozen (overwrite (Z.to_nat (ppos s))
                              (take (Z.to_nat (limit s - ppos s))
                                    (unsigned_repr 0 ++ records)) (content s))
                           (limit s) s').
  { unfold s'. rewrite lifetime_unfold.
    apply frozen_dtor; [right; left; reflexivity |].
    rewrite edge_stream_before_dtor.
    destruct (tellp_frame s) as (Hc1 & Hp1 & Hf1 & _ & Hl1).
    set (s1 := snd (tellp s)) in *.
    rewrite Hf in Hf1.
    rewrite write_within by (rewrite ?length_unsigned_repr, ?Hp1, ?Hl1; auto; lia).
    cbn [snd]. rewrite Hsplit.
    set (st0 := store (unsigned_repr 0) s1).
    assert (Hp0' : ppos st0 = ppos s + 4).
    { unfold st0. cbn [store ppos]. rewrite length_unsigned_repr, Hp1. lia. }
    assert (Hl0' : limit st0 = limit s) by (unfold st0; cbn [store limit]; exact Hl1).
    rewrite <- Hp0', <- Hl0'.
    apply put_all_overflow.
    - exact Hf1.
    - lia.
    - fold records. unfold records at 1. rewrite length_concat_repr. lia.
    - unfold st0. cbn [store content]. rewrite Hp1, Hc1. reflexivity.
    - unfold st0. cbn [store ppos]. rewrite Hp1, length_unsigned_repr. lia. }
  destruct Hfrozen as (Hfs & Hcs & _).
  split; [exact Hfs | split; [exact Hcs | split]].
  - unfold from. rewrite Hcs, Hsplit, drop_overwrite, <- app_assoc.
    rewrite take_app_length' by (rewrite length_unsigned_repr; reflexivity).
    apply le_combine_unsigned_repr.
  - unfold OSRMWriter.Count. cbn [fst].
    rewrite count_write_all_trivial, count_ctor by (rewrite ?count_ctor; reflexivity).
    reflexivity.
Qed.

End FullSink.

(** On a good stream that cannot seek, the length-prefix finalizer
    stores nothing and leaves the stream failed. *)
Lemma finalize_unseekable (ss ho c : Z) (st : ostream) :
  failed st = false -> seekable st = false ->
  frozen (content st) (ppos st)
    (snd (finalize_Write LengthPrefixFinalizeWritePolicy ss ho c st)).
Proof.
  intros Hf Hsk. cbn [finalize_Write LengthPrefixFinalizeWritePolicy].
  unfold mbind at 1. unfold io_bind at 1.
  unfold tellp. rewrite Hf, Hsk. cbn [negb andb].
  unfold mbind at 1. unfold io_bind at 1.
  unfold seekp at 1. cbn [note failed seekable]. rewrite Hf, Hsk. cbn [andb].
  apply (respects_bind (frozen (content st) (ppos st))).
  - apply frozen_write.
  - intros _. apply respects_bind; [apply frozen_seekp | intros _; apply respects_ret].
  - unfold frozen. cbn [note set_failed failed content ppos]. repeat split.
Qed.

Section Unseekable.

Context {Header T : Type} `{Trivial Header} `{Trivial T}.

(** X10. A counted-record writer on a good stream that cannot report or
    change its position (a pipe), with room for the whole segment: the
    placeholder and all the records are stored, but the seek of the
    finalizer fails, so the count is never patched in: the stream ends
    failed, the placeholder still reads 0, and [segment_start_] held
    the value of a failed [tellp], 2^64 - 1. *)
Theorem unseekable_stream_keeps_placeholder W (s : ostream) (h : Header)
    (items : list T) :
  In W counted_record_writers ->
  stream_wf s -> failed s = false -> seekable s = false ->
  ppos s + 4 + Z.of_nat (sizeof T * length items) <= limit s ->
  let s' := lifetime W s h items in
  failed s' = true /\
  content s' =
    overwrite (Z.to_nat (ppos s))
      (unsigned_repr 0 ++ concat (map object_repr items)) (content s) /\
  ppos s' = ppos s + 4 + Z.of_nat (sizeof T * length items) /\
  le_combine (take 4 (from (ppos s) s')) = 0 /\
  OSRMWriter.segment_start_ (OSRMWriter.ctor W s h) = 2 ^ 64 - 1.
Proof.
  intros HW.
  assert (EW : W = EdgeWriter) by (destruct HW as [<- | [<- | []]]; reflexivity).
  subst W. intros [[Hp0 Hpmax] Hlmax] Hf Hsk Hroom s'.
  destruct (tellp_frame s) as (Hc1 & Hp1 & Hf1 & Hsk1 & Hl1).
  set (s1 := snd (tellp s)) in *. rewrite Hf in Hf1. rewrite Hsk in Hsk1.
  set (st0 := store (unsigned_repr 0) s1).
  set (bss := map object_repr items).
  assert (Hlen : Z.of_nat (length (concat bss)) = Z.of_nat (sizeof T * length items)).
  { unfold bss. rewrite length_concat_repr. reflexivity. }
  assert (Hp0' : ppos st0 = ppos s + 4).
  { unfold st0. cbn [store ppos]. rewrite length_unsigned_repr, Hp1. lia. }
  assert (Hl0' : limit st0 = limit s) by (unfold st0; cbn [store limit]; exact Hl1).
  assert (Hgood : failed (put_all bss st0) = false).
  { apply put_all_within; [exact Hf1 |]. rewrite Hp0', Hl0'. lia. }
  destruct (put_all_good bss st0 (Z.to_nat (ppos s)) (unsigned_repr 0) (content s) Hgood)
    as (_ & Hce & Hpe & _ & Hske & _).
  { unfold st0. cbn [store content]. rewrite Hp1, Hc1. reflexivity. }
  { rewrite Hp0', length_unsigned_repr. lia. }
  assert (Hs' : frozen (content (put_all bss st0)) (ppos (put_all bss st0)) s').
  { unfold s'. rewrite lifetime_unfold, dtor_stream, edge_stream_before_dtor.
    fold s1. rewrite write_within by (rewrite ?length_unsigned_repr, ?Hp1, ?Hl1; auto; lia).
    cbn [snd]. fold st0. fold bss.
    apply finalize_unseekable; [exact Hgood |].
    rewrite Hske. unfold st0. cbn [store seekable]. exact Hsk1. }
  destruct Hs' as (Hfs & Hcs & Hps).
  split; [exact Hfs | split; [rewrite Hcs; exact Hce | split; [| split]]].
  - rewrite Hps, Hpe, Hp0', Hlen. reflexivity.
  - unfold from. rewrite Hcs, Hce, drop_overwrite, <- app_assoc.
    rewrite take_app_length' by (rewrite length_unsigned_repr; reflexivity).
    apply le_combine_unsigned_repr.
  - rewrite ctor_segment_start. unfold tellp. rewrite Hf, Hsk. reflexivity.
Qed.

End Unseekable.

(** ** The finalizer without a placeholder *)

(** Writing inside an earlier write. *)
Lemma overwrite_inner (p : nat) (a b c d : list byte) :
  (length c <= length b)%nat ->
  overwrite (p + length a) c (overwrite p (a ++ b) d) =
  overwrite p (a ++ c ++ drop (length c) b) d.
Proof.
  intros Hc.
  rewrite <- (take_drop (length c) b) at 1.
  rewrite <- (overwrite_append p a (take (length c) b ++ drop (length c) b)).
  rewrite (overwrite_head (p + length a) (take (length c) b) c)
    by (rewrite length_take; lia).
  apply overwrite_append.
Qed.

(** Writes that leave the stream good, the first of them at the put
    position of the stream. *)
Lemma put_all_from_here (bss : list (list byte)) (s : ostream) :
  bss <> [] -> 0 <= ppos s ->
  failed (put_all bss s) = false ->
  failed s = false /\
  content (put_all bss s) = overwrite (Z.to_nat (ppos s)) (concat bss) (content s) /\
  seekable (put_all bss s) = seekable s.
Proof.
  destruct bss as [| bs bss]; [congruence |]. intros _ Hp Hgood.
  unfold put_all in Hgood |- *. cbn [fold_left concat] in *.
  fold (put_all bss (snd (write bs s))) in Hgood |- *.
  assert (Hw : failed (snd (write bs s)) = false).
  { destruct (failed (snd (write bs s))) eqn:E; [| reflexivity].
    rewrite (put_all_sticky bss _ E) in Hgood. discriminate. }
  destruct (write_good bs s Hw) as (Hf & _ & Hst).
  destruct (put_all_good bss (snd (write bs s)) (Z.to_nat (ppos s)) bs (content s) Hgood)
    as (_ & Hc & _ & _ & Hsk & _).
  - rewrite Hst. reflexivity.
  - rewrite Hst. cbn [ppos store]. lia.
  - rewrite Hc, Hsk, Hst. auto.
Qed.

Lemma patch_over_items (e : ostream) (p : nat) (hdr recs d : list byte) (ss ho c : Z) :
  (failed e = false -> seekable e = true ->
   content e = overwrite p (hdr ++ recs) d /\ ss = Z.of_nat p) ->
  ho = Z.of_nat (length hdr) ->
  Z.of_nat p <= STREAMOFF_MAX -> ho <= STREAMOFF_MAX ->
  (4 <= length recs)%nat ->
  failed (snd (finalize_Write LengthPrefixFinalizeWritePolicy ss ho c e)) = false ->
  content (snd (finalize_Write LengthPrefixFinalizeWritePolicy ss ho c e)) =
  overwrite p (hdr ++ unsigned_repr (to_unsigned c) ++ drop 4 recs) d.
Proof.
  intros He Hho Hpmax Hhmax Hlen Hgood.
  apply finalize_good in Hgood.
  destruct Hgood as (Hfe & Hske & Ht & _ & _ & ->). cbn [content].
  destruct (He Hfe Hske) as [Hce ->]. subst ho.
  assert (Htarget : to_streamoff (to_size_t (Z.of_nat p + Z.of_nat (length hdr))) =
                    Z.of_nat (p + length hdr)).
  { unfold STREAMOFF_MAX in *.
    rewrite to_size_t_small in * by lia.
    destruct (Z_le_gt_dec (Z.of_nat p + Z.of_nat (length hdr)) STREAMOFF_MAX) as [Hle | Hgt].
    - rewrite to_streamoff_small by lia. lia.
    - pose proof (to_streamoff_large (Z.of_nat p + Z.of_nat (length hdr))) as Hneg.
      unfold STREAMOFF_MAX in *. lia. }
  rewrite Htarget, Nat2Z.id, Hce.
  rewrite (overwrite_inner p hdr recs (unsigned_repr (to_unsigned c)) d)
    by (rewrite length_unsigned_repr; exact Hlen).
  rewrite length_unsigned_repr. reflexivity.
Qed.

Section Unpaired.

Context {Header T : Type} `{Trivial Header} `{Trivial T}.

(** X11. The length-prefix finalizer composed with a header policy that
    reserves no placeholder.  [segment_start + header_offset] is then
    where the first record starts, and the finalizer stores the count
    over the first four bytes of the records: behind no header with the
    silent header policy, behind the header with the trivial one.  The
    orchestrator accepts either composition. *)
Theorem unpaired_finalizer_patches_records (s : ostream) (h : Header) (items : list T) :
  stream_wf s ->
  (4 <= sizeof T * length items)%nat ->
  let silent := Policies NoHeaderWritePolicy TrivialTypeWritePolicy
                         LengthPrefixFinalizeWritePolicy in
  let trivial := Policies TrivialHeaderWritePolicy TrivialTypeWritePolicy
                          LengthPrefixFinalizeWritePolicy in
  let patched := unsigned_repr (Z.of_nat (length items) mod 2 ^ 32) ++
                 drop 4 (concat (map object_repr items)) in
  (failed (lifetime silent s h items) = false ->
   content (lifetime silent s h items) =
     overwrite (Z.to_nat (ppos s)) patched (content s)) /\
  (failed (lifetime trivial s h items) = false ->
   content (lifetime trivial s h items) =
     overwrite (Z.to_nat (ppos s)) (object_repr h ++ patched) (content s)).
Proof.
  intros [[Hp0 Hpmax] Hlmax] Hlen silent trivial patched.
  assert (Hrecs : (4 <= length (concat (map object_repr items)))%nat)
    by (rewrite length_concat_repr; exact Hlen).
  assert (Hne : map object_repr items <> []).
  { destruct items; [simpl in Hlen; lia | discriminate]. }
  assert (Hcount : forall c, c = to_size_t (0 + Z.of_nat (length items)) ->
            to_unsigned c = Z.of_nat (length items) mod 2 ^ 32).
  { intros c ->. rewrite to_unsigned_to_size_t. reflexivity. }
  destruct (tellp_frame s) as (Hc1 & Hp1 & Hf1 & Hsk1 & Hl1).
  split; intros Hgood.
  - rewrite lifetime_unfold, dtor_stream in Hgood |- *.
    destruct (members_write_all silent items (OSRMWriter.ctor silent s h)) as [Hss Hho].
    rewrite Hss, Hho in Hgood |- *.
    assert (Hctor : OSRMWriter.ctor silent s h =
              OSRMWriter.mk (snd (tellp s)) (to_size_t (fst (tellp s))) 0 0 [HeaderCall]).
    { unfold OSRMWriter.ctor. destruct (tellp s). reflexivity. }
    rewrite count_write_all_trivial, stream_write_all_trivial in Hgood |- *
      by (rewrite ?Hctor; reflexivity).
    rewrite Hctor in Hgood |- *.
    cbn [OSRMWriter.stream_ OSRMWriter.segment_start_ OSRMWriter.header_offset_
         OSRMWriter.count_ Finalize_ silent] in Hgood |- *.
    rewrite (patch_over_items _ (Z.to_nat (ppos s)) [] (concat (map object_repr items))
               (content s) _ _ _) ; [ | | reflexivity | lia | unfold STREAMOFF_MAX; lia
                                      | exact Hrecs | exact Hgood ].
    + cbn [app]. unfold patched. rewrite (Hcount _ eq_refl). reflexivity.
    + intros Hfe Hske. cbn [app].
      destruct (put_all_from_here _ (snd (tellp s)) Hne) as (Hf & Hc & Hsk);
        [rewrite Hp1; exact Hp0 | exact Hfe |].
      rewrite Hc, Hc1, Hp1. split; [reflexivity |].
      rewrite tellp_good by congruence. cbn [fst].
      unfold STREAMOFF_MAX in *. rewrite to_size_t_small by lia. lia.
  - rewrite lifetime_unfold, dtor_stream in Hgood |- *.
    destruct (members_write_all trivial items (OSRMWriter.ctor trivial s h)) as [Hss Hho].
    rewrite Hss, Hho in Hgood |- *.
    assert (Hctor : OSRMWriter.ctor trivial s h =
              OSRMWriter.mk (snd (write (object_repr h) (snd (tellp s))))
                (to_size_t (fst (tellp s))) (Z.of_nat (sizeof Header)) 0 [HeaderCall]).
    { unfold OSRMWriter.ctor. destruct (tellp s). reflexivity. }
    rewrite count_write_all_trivial, stream_write_all_trivial in Hgood |- *
      by (rewrite ?Hctor; reflexivity).
    rewrite Hctor in Hgood |- *.
    cbn [OSRMWriter.stream_ OSRMWriter.segment_start_ OSRMWriter.header_offset_
         OSRMWriter.count_ Finalize_ trivial] in Hgood |- *.
    rewrite (patch_over_items _ (Z.to_nat (ppos s)) (object_repr h)
               (concat (map object_repr items)) (content s) _ _ _);
      [ | | rewrite object_repr_length; reflexivity | lia | apply sizeof_bound
        | exact Hrecs | exact Hgood ].
    + unfold patched. rewrite (Hcount _ eq_refl). reflexivity.
    + intros Hfe Hske.
      assert (Hw : failed (snd (write (object_repr h) (snd (tellp s)))) = false).
      { destruct (failed (snd (write (object_repr h) (snd (tellp s))))) eqn:E;
          [| reflexivity].
        rewrite (put_all_sticky _ _ E) in Hfe. discriminate. }
      destruct (write_good _ _ Hw) as (Hf & _ & Hst).
      destruct (put_all_good (map object_repr items) _ (Z.to_nat (ppos s))
                  (object_repr h) (content s) Hfe) as (_ & Hc & _ & _ & Hsk & _).
      * rewrite Hst. cbn [content store]. rewrite Hp1, Hc1. reflexivity.
      * rewrite Hst. cbn [ppos store]. rewrite Hp1. lia.
      * rewrite Hc. split; [reflexivity |].
        rewrite Hsk, Hst in Hske. cbn [seekable store] in Hske.
        rewrite tellp_good by congruence. cbn [fst].
        unfold STREAMOFF_MAX in *. rewrite to_size_t_small by lia. lia.
Qed.

End Unpaired.

(** ** The bytes before the segment *)

Lemma length_overwrite (p : nat) (bs d : list byte) :
  (length d <= length (overwrite p bs d))%nat.
Proof.
  unfold overwrite. rewrite !length_app, length_pad, length_drop. lia.
Qed.

Lemma lookup_overwrite_before (p i : nat) (bs d : list byte) :
  (i < p)%nat -> (i < length d)%nat -> overwrite p bs d !! i = d !! i.
Proof.
  intros Hip Hid. unfold overwrite, pad.
  rewrite lookup_app_l by (rewrite length_app, length_take, length_replicate; lia).
  rewrite lookup_app_l by (rewrite length_take; lia).
  apply lookup_take_lt. exact Hip.
Qed.

Lemma kept_below_same p a b : content b = content a -> kept_below p a b.
Proof. intros E. unfold kept_below. rewrite E. split; [lia | reflexivity]. Qed.

Lemma kept_below_refl p a : kept_below p a a.
Proof. apply kept_below_same. reflexivity. Qed.

Lemma kept_below_trans p a b c :
  kept_below p a b -> kept_below p b c -> kept_below p a c.
Proof.
  intros [L1 K1] [L2 K2]. split; [lia |].
  intros i Hi Hl. rewrite K2 by lia. apply K1; assumption.
Qed.

Lemma kept_below_write p bs st :
  (failed st = false -> 0 <= p <= ppos st) -> kept_below p st (snd (write bs st)).
Proof.
  intros Hpos. unfold write. cbn [snd]. destruct (failed st) eqn:Hf.
  - apply kept_below_same. reflexivity.
  - destruct (ppos st + Z.of_nat (length bs) <=? limit st).
    + split; cbn [store content]; [apply length_overwrite |].
      intros i Hi Hl. apply lookup_overwrite_before; [| exact Hl].
      specialize (Hpos eq_refl). lia.
    + destruct (store_fitting_cases bs st) as [-> | [_ ->]].
      * apply kept_below_same. reflexivity.
      * split; cbn [note set_failed store content]; [apply length_overwrite |].
        intros i Hi Hl. apply lookup_overwrite_before; [| exact Hl].
        specialize (Hpos eq_refl). lia.
Qed.

Lemma kept_below_seekp p q st : kept_below p st (snd (seekp q st)).
Proof.
  apply kept_below_same. unfold seekp. cbn [snd].
  destruct (failed st); [reflexivity |].
  destruct (seekable st && (0 <=? q)); reflexivity.
Qed.

Lemma kept_below_tellp p st : kept_below p st (snd (tellp st)).
Proof.
  apply kept_below_same. apply tellp_frame.
Qed.

Lemma guards_write p s0 bs : 0 <= p -> respects (guards p s0) (write bs).
Proof.
  intros Hp st [Hk Hpos]. split.
  - apply (kept_below_trans p s0 st); [exact Hk |].
    apply kept_below_write. intros Hf. specialize (Hpos Hf). lia.
  - intros Hgood. destruct (write_good bs st Hgood) as (Hf & _ & ->).
    specialize (Hpos Hf). cbn [store ppos]. lia.
Qed.

Lemma guards_tellp p s0 : respects (guards p s0) tellp.
Proof.
  intros st [Hk Hpos]. destruct (tellp_frame st) as (_ & Hp1 & Hf1 & _). split.
  - apply (kept_below_trans p s0 st); [exact Hk | apply kept_below_tellp].
  - rewrite Hp1, Hf1. exact Hpos.
Qed.

(** The length-prefix finalizer keeps the bytes before the position the
    constructor found. *)
Lemma kept_below_finalize (p ss ho c : Z) (s0 st : ostream) :
  0 <= p <= STREAMOFF_MAX -> 0 <= ho <= STREAMOFF_MAX ->
  (failed st = false -> seekable st = true -> ss = p) ->
  guards p s0 st ->
  kept_below p s0 (snd (finalize_Write LengthPrefixFinalizeWritePolicy ss ho c st)).
Proof.
  intros Hp Hho Hss [Hk Hpos].
  cbn [finalize_Write LengthPrefixFinalizeWritePolicy].
  unfold mbind, io_bind, mret, io_ret.
  set (target := to_streamoff (to_size_t (ss + ho))).
  pose proof (kept_below_tellp p st) as E1.
  destruct (tellp_frame st) as (_ & _ & Hf1 & Hsk1 & _).
  destruct (tellp st) as [here st1]. cbn [snd] in E1, Hf1, Hsk1.
  pose proof (kept_below_seekp p target st1) as E2.
  pose proof (seekp_good target st1) as G2.
  destruct (seekp target st1) as [u2 st2]. cbn [snd] in E2, G2.
  assert (E3 : kept_below p st2 (snd (write (unsigned_repr (to_unsigned c)) st2))).
  { apply kept_below_write. intros Hf2.
    destruct (G2 Hf2) as (Hf1' & Hsk1' & Htarget & ->). cbn [set_ppos ppos].
    rewrite Hf1 in Hf1'. rewrite Hsk1 in Hsk1'.
    split; [lia |]. unfold target in *. rewrite (Hss Hf1' Hsk1') in *.
    apply target_not_before; [exact Hp | exact Hho | exact Htarget]. }
  destruct (write (unsigned_repr (to_unsigned c)) st2) as [u3 st3]. cbn [snd] in E3.
  pose proof (kept_below_seekp p here st3) as E4.
  destruct (seekp here st3) as [u4 st4]. cbn [snd] in *.
  eauto using kept_below_trans.
Qed.

(** X12. A writer never touches what the stream held before the segment:
    for every composition of the policies of this file, on any stream,
    seekable or not, failing or not, and whatever the caller does in the
    block, each byte the sink held before the position at construction
    is the same when the writer is gone, and the sink has lost none. *)
Theorem earlier_bytes_are_kept P {Header T} `{Trivial Header} `{Trivial T}
    (s : ostream) (h : Header) (b : block T) :
  of_this_file P -> stream_wf s ->
  let s' := out (scope P s h b) in
  (length (content s) <= length (content s'))%nat /\
  forall i : nat, Z.of_nat i < ppos s -> (i < length (content s))%nat ->
    content s' !! i = content s !! i.
Proof.
  intros HP [[Hp0 Hpmax] Hlmax] s'.
  change (kept_below (ppos s) s s'). unfold s'.
  set (w := snd (run_block P b (OSRMWriter.ctor P s h))).
  assert (Hblock : guards (ppos s) s (OSRMWriter.stream_ w)).
  { apply (block_respects (guards (ppos s) s));
      [intros bs; apply guards_write; exact Hp0 | exact HP |].
    apply (ctor_respects (guards (ppos s) s));
      [intros bs; apply guards_write; exact Hp0 | apply guards_tellp | exact HP |].
    split; [apply kept_below_refl | lia]. }
  rewrite scope_unfold. cbn [out]. rewrite dtor_stream. fold w.
  destruct (run_block_members P b (OSRMWriter.ctor P s h)) as [E1 E2].
  fold w in E1, E2. rewrite E1, E2.
  destruct HP as (HH & HT & [E | [E | []]]); rewrite <- E.
  - exact (proj1 Hblock).
  - apply kept_below_finalize;
      [lia | apply ctor_header_offset, HH | | exact Hblock].
    intros Hf Hsk. rewrite ctor_segment_start.
    assert (HP' : of_this_file P) by (repeat split; [exact HH | exact HT | rewrite <- E; right; left; reflexivity]).
    unfold w in Hf, Hsk.
    rewrite (run_keeps_seekable P s h b HP') in Hsk.
    apply (run_keeps_failure P s h b HP') in Hf.
    rewrite (tellp_good s Hf Hsk). cbn [fst].
    apply to_size_t_small. unfold STREAMOFF_MAX in *. lia.
Qed.

(** ** A finalizer that leaves a mark *)

(** On a writer with the silent header and item policies and the marker
    finalizer, [marks] counts the runs of the finalizer. *)
Lemma marks_count_the_marker {Header T} `{Trivial Header} `{Trivial T} :
  counts_finalizer MarkedWriter Header T marks.
Proof.
  unfold counts_finalizer, marks. repeat split.
  - intros st. unfold tellp. destruct (negb (failed st) && seekable st); reflexivity.
  - intros ss ho c st.
    cbn [MarkedWriter Finalize_ finalize_Write MarkerFinalizeWritePolicy].
    unfold mbind, io_bind, mret, io_ret.
    unfold write. cbn [snd length]. destruct (failed st); [reflexivity |].
    destruct (Z.leb_spec (ppos st + Z.of_nat 1) (limit st)) as [Hfits | Hnot];
      [reflexivity |].
    unfold store_fitting, fitting.
    replace (Z.to_nat (limit st - ppos st)) with 0%nat by lia.
    reflexivity.
Qed.

(** ** The theorems at concrete inputs *)

Lemma counted_records_round_trip_witness :
  In EdgeWriter counted_record_writers /\
  stream_wf fresh /\
  Z.of_nat (length [R0; R1; R2]) < 2 ^ 32 /\
  failed (lifetime EdgeWriter fresh (U32 0) [R0; R1; R2]) = false /\
  read_segment 8 (from 0 (lifetime EdgeWriter fresh (U32 0) [R0; R1; R2])) =
    Some (3, map object_repr [R0; R1; R2]).
Proof.
  assert (Hwf : stream_wf fresh).
  { unfold stream_wf, fresh, STREAMOFF_MAX. cbn [ppos limit]. lia. }
  assert (Hn : Z.of_nat (length [R0; R1; R2]) < 2 ^ 32) by (cbn [length]; lia).
  assert (Hgood : failed (lifetime EdgeWriter fresh (U32 0) [R0; R1; R2]) = false)
    by reflexivity.
  assert (HW : In EdgeWriter counted_record_writers) by (left; reflexivity).
  split; [exact HW | split; [exact Hwf | split; [exact Hn | split; [exact Hgood |]]]].
  exact (proj1 (proj2 (proj2
    (counted_records_round_trip EdgeWriter fresh (U32 0) [R0; R1; R2]
       HW Hwf Hn Hgood)))).
Defined.

Lemma empty_segment_witness :
  In NodeWriter counted_record_writers /\
  stream_wf fresh /\
  failed (lifetime NodeWriter fresh (U32 0) (@nil record8)) = false /\
  content (lifetime NodeWriter fresh (U32 0) (@nil record8)) = unsigned_repr 0 /\
  length (content (lifetime NodeWriter fresh (U32 0) (@nil record8))) = 4%nat.
Proof.
  assert (HW : In NodeWriter counted_record_writers) by (right; left; reflexivity).
  assert (Hwf : stream_wf fresh).
  { unfold stream_wf, fresh, STREAMOFF_MAX. cbn [ppos limit]. lia. }
  assert (Hgood : failed (lifetime NodeWriter fresh (U32 0) (@nil record8)) = false)
    by reflexivity.
  split; [exact HW | split; [exact Hwf | split; [exact Hgood |]]].
  exact (proj2 (proj2 (proj2 (proj2
    (empty_segment (T := record8) NodeWriter fresh (U32 0) HW Hwf Hgood)))) eq_refl).
Defined.

Lemma finalize_restores_position_witness :
  In (Finalize_ EdgeWriter) finalize_policies /\
  failed (out (scope EdgeWriter fresh (U32 0) (CallWrite R0 End))) = false /\
  ppos (out (scope EdgeWriter fresh (U32 0) (CallWrite R0 End))) = 12.
Proof.
  assert (HF : In (Finalize_ EdgeWriter) finalize_policies)
    by (right; left; reflexivity).
  assert (Hgood : failed (out (scope EdgeWriter fresh (U32 0) (CallWrite R0 End))) = false)
    by reflexivity.
  split; [exact HF | split; [exact Hgood |]].
  exact (finalize_restores_position EdgeWriter fresh (U32 0) (CallWrite R0 End) HF
           (or_intror Hgood)).
Defined.

Lemma count_after_k_writes_witness :
  In NodeWriter counted_record_writers /\
  Z.of_nat (length [R0; R1]) < 2 ^ 64 /\
  fst (OSRMWriter.Count
         (write_all NodeWriter [R0; R1] (OSRMWriter.ctor NodeWriter fresh (U32 0)))) = 2.
Proof.
  assert (HW : In NodeWriter counted_record_writers) by (right; left; reflexivity).
  assert (Hk : Z.of_nat (length [R0; R1]) < 2 ^ 64) by (cbn [length]; lia).
  split; [exact HW | split; [exact Hk |]].
  exact (f_equal fst
    (proj1 (count_after_k_writes NodeWriter fresh (U32 0) [R0; R1] R2 HW Hk))).
Defined.

Lemma header_only_segment_witness :
  stream_wf fresh /\
  failed (out (scope HeaderWriter fresh H16 (End (T := record8)))) = false /\
  content (out (scope HeaderWriter fresh H16 (End (T := record8)))) = object_repr H16 /\
  length (content (out (scope HeaderWriter fresh H16 (End (T := record8))))) = 16%nat.
Proof.
  assert (Hwf : stream_wf fresh).
  { unfold stream_wf, fresh, STREAMOFF_MAX. cbn [ppos limit]. lia. }
  assert (Hgood : failed (out (scope HeaderWriter fresh H16 (End (T := record8)))) = false)
    by reflexivity.
  split; [exact Hwf | split; [exact Hgood |]].
  exact (proj2 (proj2 (proj2 (proj2
    (header_only_segment fresh H16 (End (T := record8)) Hwf Hgood)))) eq_refl).
Defined.

Lemma never_writes_before_segment_start_witness :
  of_this_file EdgeWriter /\ stream_wf used /\ seekable used = true /\
  OSRMWriter.segment_start_ (OSRMWriter.ctor EdgeWriter used (U32 0)) = ppos used /\
  OSRMWriter.header_offset_ (OSRMWriter.ctor EdgeWriter used (U32 0)) = 0.
Proof.
  assert (HP : of_this_file EdgeWriter).
  { unfold of_this_file. cbn. tauto. }
  assert (Hwf : stream_wf used).
  { unfold stream_wf, used, STREAMOFF_MAX. cbn [ppos limit]. lia. }
  assert (Hsk : seekable used = true) by reflexivity.
  split; [exact HP | split; [exact Hwf | split; [exact Hsk |]]].
  destruct (never_writes_before_segment_start EdgeWriter used (U32 0)
              (CallWrite R0 End) HP Hwf Hsk) as (_ & Hstart & Hoff).
  split; [exact (Hstart eq_refl) | exact (Hoff eq_refl)].
Defined.

Lemma stream_failures_stay_on_the_stream_witness :
  of_this_file EdgeWriter /\
  (failed (bounded 4) = false /\
   failed (out (scope EdgeWriter (bounded 4) (U32 0) (CallWrite R0 End))) = true) /\
  fst (OSRMWriter.Count
         (write_all EdgeWriter [R0] (OSRMWriter.ctor EdgeWriter (bounded 4) (U32 0)))) = 1.
Proof.
  assert (HP : of_this_file EdgeWriter).
  { unfold of_this_file. cbn. tauto. }
  split; [exact HP | split; [split; reflexivity |]].
  exact (proj2 (proj2
    (stream_failures_stay_on_the_stream EdgeWriter (bounded 4) (U32 0)
       (CallWrite R0 End) HP)) eq_refl [R0]).
Defined.

Lemma finalize_narrows_count_witness :
  In EdgeWriter counted_record_writers /\
  2 ^ 32 <= OSRMWriter.count_ overflowing /\
  le_combine (take 4 (from 0 (fst (OSRMWriter.dtor EdgeWriter overflowing)))) = 5.
Proof.
  assert (Hbig : 2 ^ 32 <= OSRMWriter.count_ overflowing).
  { unfold overflowing. cbn [OSRMWriter.count_]. lia. }
  assert (HW : In EdgeWriter counted_record_writers) by (left; reflexivity).
  split; [exact HW | split; [exact Hbig |]].
  refine (proj1 (proj2 (proj2
    (finalize_narrows_count EdgeWriter overflowing HW _ _ _ _ _ Hbig)))).
  - reflexivity.
  - reflexivity.
  - cbn. lia.
  - vm_compute. congruence.
  - vm_compute. congruence.
Defined.

Lemma runs_in_step_witness :
  of_this_file EdgeWriter /\
  content fresh <> content used /\
  ppos (out (scope EdgeWriter fresh (U32 0) (CallWrite R0 End))) =
  ppos (out (scope EdgeWriter used (U32 0) (CallWrite R0 End))) /\
  exists new : list event,
    trace (out (scope EdgeWriter fresh (U32 0) (CallWrite R0 End))) = new ++ trace fresh /\
    trace (out (scope EdgeWriter used (U32 0) (CallWrite R0 End))) = new ++ trace used.
Proof.
  assert (HP : of_this_file EdgeWriter).
  { unfold of_this_file. cbn. tauto. }
  split; [exact HP | split; [discriminate |]].
  destruct (runs_in_step EdgeWriter fresh used (U32 0) (CallWrite R0 End)
              HP eq_refl eq_refl eq_refl eq_refl) as (Hnew & Hpos & _).
  split; [exact Hpos | exact Hnew].
Defined.

Lemma writer_is_deterministic_witness :
  of_this_file EdgeWriter /\
  ppos fresh = ppos used /\
  content fresh <> content used /\
  failed (out (scope EdgeWriter fresh (U32 0) (CallWrite R0 End))) = false /\
  failed (out (scope EdgeWriter used (U32 0) (CallWrite R0 End))) = false /\
  exists n1 n2 : list event,
    trace (out (scope EdgeWriter fresh (U32 0) (CallWrite R0 End))) = n1 ++ trace fresh /\
    trace (out (scope EdgeWriter used (U32 0) (CallWrite R0 End))) = n2 ++ trace used /\
    stores n1 = stores n2.
Proof.
  assert (HP : of_this_file EdgeWriter).
  { unfold of_this_file. cbn. tauto. }
  assert (Hg1 : failed (out (scope EdgeWriter fresh (U32 0) (CallWrite R0 End))) = false)
    by reflexivity.
  assert (Hg2 : failed (out (scope EdgeWriter used (U32 0) (CallWrite R0 End))) = false)
    by reflexivity.
  split; [exact HP | split; [reflexivity | split; [discriminate |]]].
  split; [exact Hg1 | split; [exact Hg2 |]].
  exact (proj1 (proj2 (proj2
    (writer_is_deterministic EdgeWriter fresh used (U32 0) (CallWrite R0 End) HP)
    eq_refl Hg1 Hg2))).
Defined.

Lemma counted_segment_length_witness :
  In EdgeWriter counted_record_writers /\
  stream_wf used /\
  failed (lifetime EdgeWriter used (U32 0) [R0; R1; R2]) = false /\
  ppos (lifetime EdgeWriter used (U32 0) [R0; R1; R2]) - ppos used = 28.
Proof.
  assert (HW : In EdgeWriter counted_record_writers) by (left; reflexivity).
  assert (Hwf : stream_wf used).
  { unfold stream_wf, used, STREAMOFF_MAX. cbn [ppos limit]. lia. }
  assert (Hgood : failed (lifetime EdgeWriter used (U32 0) [R0; R1; R2]) = false)
    by reflexivity.
  split; [exact HW | split; [exact Hwf | split; [exact Hgood |]]].
  exact (proj1 (counted_segment_length EdgeWriter used (U32 0) [R0; R1; R2]
                  HW Hwf Hgood)).
Defined.

Lemma failed_stream_is_left_alone_witness :
  of_this_file EdgeWriter /\
  failed (set_failed used) = true /\
  content (out (scope EdgeWriter (set_failed used) (U32 0) (CallWrite R0 End))) =
  content used.
Proof.
  assert (HP : of_this_file EdgeWriter).
  { unfold of_this_file. cbn. tauto. }
  split; [exact HP | split; [reflexivity |]].
  exact (proj1 (proj2
    (failed_stream_is_left_alone EdgeWriter (set_failed used) (U32 0)
       (CallWrite R0 End) HP eq_refl))).
Defined.

Lemma counted_records_prefix_modulo_witness :
  In NodeWriter counted_record_writers /\
  stream_wf used /\
  failed (lifetime NodeWriter used (U32 0) [R0; R1]) = false /\
  le_combine (take 4 (from (ppos used) (lifetime NodeWriter used (U32 0) [R0; R1]))) = 2.
Proof.
  assert (HW : In NodeWriter counted_record_writers) by (right; left; reflexivity).
  assert (Hwf : stream_wf used).
  { unfold stream_wf, used, STREAMOFF_MAX. cbn [ppos limit]. lia. }
  assert (Hgood : failed (lifetime NodeWriter used (U32 0) [R0; R1]) = false)
    by reflexivity.
  split; [exact HW | split; [exact Hwf | split; [exact Hgood |]]].
  exact (proj2 (counted_records_prefix_modulo NodeWriter used (U32 0) [R0; R1]
                  HW Hwf Hgood)).
Defined.

Lemma segment_after_any_block_witness :
  In EdgeWriter counted_record_writers /\
  stream_wf used /\
  passed EdgeWriter counting_block (OSRMWriter.ctor EdgeWriter used (U32 0)) = [R0; R1] /\
  failed (out (scope EdgeWriter used (U32 0) counting_block)) = false /\
  read_segment 8 (from 0 (out (scope EdgeWriter used (U32 0) counting_block))) =
    Some (2, map object_repr [R0; R1]).
Proof.
  assert (HW : In EdgeWriter counted_record_writers) by (left; reflexivity).
  assert (Hwf : stream_wf used).
  { unfold stream_wf, used, STREAMOFF_MAX. cbn [ppos limit]. lia. }
  assert (Hn : Z.of_nat (length (passed EdgeWriter counting_block
                                   (OSRMWriter.ctor EdgeWriter used (U32 0)))) < 2 ^ 32)
    by (vm_compute; reflexivity).
  assert (Hgood : failed (out (scope EdgeWriter used (U32 0) counting_block)) = false)
    by reflexivity.
  split; [exact HW | split; [exact Hwf | split; [reflexivity | split; [exact Hgood |]]]].
  exact (proj1 (proj2
    (segment_after_any_block EdgeWriter used (U32 0) counting_block HW Hwf Hn Hgood))).
Defined.

Lemma segments_in_sequence_witness :
  stream_wf fresh /\
  ppos fresh = Z.of_nat (length (content fresh)) /\
  failed (lifetime EdgeWriter
            (lifetime NodeWriter (lifetime HeaderWriter fresh H16 (@nil record8))
               (U32 0) [R0; R1])
            (U32 0) [U32 7; U32 8; U32 9]) = false /\
  content (lifetime EdgeWriter
             (lifetime NodeWriter (lifetime HeaderWriter fresh H16 (@nil record8))
                (U32 0) [R0; R1])
             (U32 0) [U32 7; U32 8; U32 9]) =
    content fresh ++ object_repr H16 ++ segment_bytes [R0; R1] ++
    segment_bytes [U32 7; U32 8; U32 9].
Proof.
  assert (Hwf : stream_wf fresh).
  { unfold stream_wf, fresh, STREAMOFF_MAX. cbn [ppos limit]. lia. }
  assert (Hend : ppos fresh = Z.of_nat (length (content fresh))) by reflexivity.
  assert (Hgood : failed (lifetime EdgeWriter
            (lifetime NodeWriter (lifetime HeaderWriter fresh H16 (@nil record8))
               (U32 0) [R0; R1])
            (U32 0) [U32 7; U32 8; U32 9]) = false) by reflexivity.
  split; [exact Hwf | split; [exact Hend | split; [exact Hgood |]]].
  exact (proj1 (segments_in_sequence fresh H16 (U32 0) [R0; R1] (U32 0)
                  [U32 7; U32 8; U32 9] Hwf Hend Hgood)).
Defined.

Lemma full_sink_leaves_count_zero_witness :
  In EdgeWriter counted_record_writers /\
  stream_wf (bounded 15) /\
  failed (bounded 15) = false /\
  failed (lifetime EdgeWriter (bounded 15) (U32 0) [R0; R1]) = true /\
  content (lifetime EdgeWriter (bounded 15) (U32 0) [R0; R1]) =
    unsigned_repr 0 ++ object_repr R0 ++ take 3 (object_repr R1) /\
  le_combine (take 4 (from (ppos (bounded 15))
                        (lifetime EdgeWriter (bounded 15) (U32 0) [R0; R1]))) = 0.
Proof.
  assert (HW : In EdgeWriter counted_record_writers) by (left; reflexivity).
  assert (Hwf : stream_wf (bounded 15)).
  { unfold stream_wf, bounded, STREAMOFF_MAX. cbn [ppos limit]. lia. }
  assert (Hroom : ppos (bounded 15) + 4 <= limit (bounded 15))
    by (vm_compute; discriminate).
  assert (Hfull : limit (bounded 15) <
                  ppos (bounded 15) + 4 + Z.of_nat (sizeof record8 * length [R0; R1]))
    by (vm_compute; reflexivity).
  pose proof (full_sink_leaves_count_zero EdgeWriter (bounded 15) (U32 0) [R0; R1]
                HW Hwf eq_refl Hroom Hfull) as (Hf & Hc & Hz & _).
  split; [exact HW | split; [exact Hwf | split; [reflexivity | split; [exact Hf |]]]].
  split; [exact Hc | exact Hz].
Defined.

Lemma unseekable_stream_keeps_placeholder_witness :
  In NodeWriter counted_record_writers /\
  stream_wf pipe /\
  failed pipe = false /\ seekable pipe = false /\
  failed (lifetime NodeWriter pipe (U32 0) [R0; R1]) = true /\
  content (lifetime NodeWriter pipe (U32 0) [R0; R1]) =
    overwrite (Z.to_nat (ppos pipe))
      (unsigned_repr 0 ++ concat (map object_repr [R0; R1])) (content pipe).
Proof.
  assert (HW : In NodeWriter counted_record_writers) by (right; left; reflexivity).
  assert (Hwf : stream_wf pipe).
  { unfold stream_wf, pipe, STREAMOFF_MAX. cbn [ppos limit]. lia. }
  assert (Hroom : ppos pipe + 4 + Z.of_nat (sizeof record8 * length [R0; R1]) <=
                  limit pipe) by (vm_compute; discriminate).
  pose proof (unseekable_stream_keeps_placeholder NodeWriter pipe (U32 0) [R0; R1]
                HW Hwf eq_refl eq_refl Hroom) as (Hf & Hc & _).
  split; [exact HW | split; [exact Hwf | split; [reflexivity | split; [reflexivity |]]]].
  split; [exact Hf | exact Hc].
Defined.

Lemma unpaired_finalizer_patches_records_witness :
  stream_wf used /\
  (4 <= sizeof record8 * length [R0; R1])%nat /\
  failed (lifetime (Policies TrivialHeaderWritePolicy TrivialTypeWritePolicy
                             LengthPrefixFinalizeWritePolicy) used H16 [R0; R1]) = false /\
  content (lifetime (Policies TrivialHeaderWritePolicy TrivialTypeWritePolicy
                              LengthPrefixFinalizeWritePolicy) used H16 [R0; R1]) =
    overwrite (Z.to_nat (ppos used))
      (object_repr H16 ++ unsigned_repr (Z.of_nat (length [R0; R1]) mod 2 ^ 32) ++
       drop 4 (concat (map object_repr [R0; R1])))
      (content used).
Proof.
  assert (Hwf : stream_wf used).
  { unfold stream_wf, used, STREAMOFF_MAX. cbn [ppos limit]. lia. }
  assert (Hlen : (4 <= sizeof record8 * length [R0; R1])%nat) by (vm_compute; lia).
  assert (Hgood : failed (lifetime (Policies TrivialHeaderWritePolicy TrivialTypeWritePolicy
                             LengthPrefixFinalizeWritePolicy) used H16 [R0; R1]) = false)
    by reflexivity.
  split; [exact Hwf | split; [exact Hlen | split; [exact Hgood |]]].
  exact (proj2 (unpaired_finalizer_patches_records used H16 [R0; R1] Hwf Hlen) Hgood).
Defined.

Lemma earlier_bytes_are_kept_witness :
  of_this_file EdgeWriter /\
  stream_wf midway /\
  content (out (scope EdgeWriter midway (U32 0) counting_block)) !! 15%nat =
  content midway !! 15%nat.
Proof.
  assert (HP : of_this_file EdgeWriter).
  { unfold of_this_file. cbn. tauto. }
  assert (Hwf : stream_wf midway).
  { unfold stream_wf, midway, STREAMOFF_MAX. cbn [ppos limit]. lia. }
  split; [exact HP | split; [exact Hwf |]].
  apply (proj2 (earlier_bytes_are_kept EdgeWriter midway (U32 0) counting_block HP Hwf)).
  - vm_compute. reflexivity.
  - vm_compute. lia.
Defined.

Lemma finalize_exactly_once_witness :
  counts_finalizer MarkedWriter uint32 record8 marks /\
  marks (out (scope MarkedWriter pipe (U32 0) counting_block)) = S (marks pipe) /\
  marks (out (scope MarkedWriter (bounded 0) (U32 0) (End (T := record8)))) =
    S (marks (bounded 0)).
Proof.
  split; [exact marks_count_the_marker |]. split.
  - exact (proj1 (proj2 (proj2
      (finalize_exactly_once MarkedWriter pipe (U32 0) counting_block)))
      marks marks_count_the_marker).
  - exact (proj1 (proj2 (proj2
      (finalize_exactly_once MarkedWriter (bounded 0) (U32 0) (End (T := record8)))))
      marks marks_count_the_marker).
Defined.
